(** * Gloomhaven engine: hex geometry, path finding, line of sight, game store

    A shallow embedding of [src/engine/core/hex.ts] and of the store actions of
    [src/store/gameStore.ts], with the properties of the engine proved over it.

    Conventions of the embedding:
    - a JavaScript [number] holding a hex coordinate, a range, a level or a
      reputation is an integer of [Z]; the fractional values that occur in
      line interpolation and in the average party level are exact rationals
      of [Q]; [NaN] and [Infinity] are written out where the code can
      produce them;
    - a [Map<string, V>] is a [gmap string V]; a [Set<string>] that is
      iterated (the open set of the search) is a duplicate-free list in
      insertion order;
    - a [for (let x = lo; x <= hi; x++)] loop is a traversal of
      [seqZ lo (hi - lo + 1)]. *)

From Stdlib Require Import ZArith QArith Qround Qabs Qfield Lia String Ascii.
From Stdlib Require Import DecimalString DecimalZ.
From stdpp Require Import base gmap strings list list_numbers fin_maps.

Local Open Scope Z_scope.

(* ===================================================================== *)
(** ** Basic hex operations *)
(* ===================================================================== *)

Record Hex := mkHex { q : Z; r : Z }.

#[global] Instance Hex_eq_dec : EqDecision Hex.
Proof. solve_decision. Defined.

Definition hexDistance (hex1 hex2 : Hex) : Z :=
  (Z.abs (q hex1 - q hex2)
   + Z.abs (q hex1 + r hex1 - q hex2 - r hex2)
   + Z.abs (r hex1 - r hex2)) / 2.

Definition hexAdd (hex1 hex2 : Hex) : Hex :=
  {| q := q hex1 + q hex2; r := r hex1 + r hex2 |}.

Definition hexSubtract (hex1 hex2 : Hex) : Hex :=
  {| q := q hex1 - q hex2; r := r hex1 - r hex2 |}.

Definition hexEquals (hex1 hex2 : Hex) : bool :=
  (q hex1 =? q hex2) && (r hex1 =? r hex2).

(* ===================================================================== *)
(** ** Neighbor operations *)
(* ===================================================================== *)

Definition HEX_DIRECTIONS : list Hex :=
  [ mkHex 1 0;       (* East *)
    mkHex 1 (-1);    (* Northeast *)
    mkHex 0 (-1);    (* Northwest *)
    mkHex (-1) 0;    (* West *)
    mkHex (-1) 1;    (* Southwest *)
    mkHex 0 1 ].     (* Southeast *)

Definition getNeighbors (hex : Hex) : list Hex :=
  map (fun dir => hexAdd hex dir) HEX_DIRECTIONS.

(** [direction] is the index 0-5 of the docstring; [direction mod 6] is
    always inside the table, so the default of [nth] is never returned. *)
Definition getNeighbor (hex : Hex) (direction : nat) : Hex :=
  hexAdd hex (nth (direction mod 6)%nat HEX_DIRECTIONS (mkHex 0 0)).

Definition getHexesInRange (center : Hex) (range : Z) : list Hex :=
  seqZ (- range) (range - (- range) + 1) ≫= fun dq =>
    let r1 := Z.max (- range) (- dq - range) in
    let r2 := Z.min range (- dq + range) in
    (fun dr => {| q := q center + dq; r := r center + dr |})
      <$> seqZ r1 (r2 - r1 + 1).

(** The inner loop of [getHexRing]: [radius] steps in direction [i], pushing
    the hex before each step. Returns the pushed hexes and the hex reached. *)
Fixpoint ringSide (i : nat) (steps : nat) (hex : Hex) : list Hex * Hex :=
  match steps with
  | O => ([], hex)
  | S steps' =>
      let '(rest, last) := ringSide i steps' (getNeighbor hex i) in
      (hex :: rest, last)
  end.

(** The outer loop of [getHexRing] over the directions [dirs]. *)
Fixpoint ringSides (dirs : list nat) (steps : nat) (hex : Hex) : list Hex :=
  match dirs with
  | [] => []
  | i :: dirs' =>
      let '(side, last) := ringSide i steps hex in
      side ++ ringSides dirs' steps last
  end.

Definition getHexRing (center : Hex) (radius : Z) : list Hex :=
  if radius =? 0 then [center]
  else ringSides (seq 0 6) (Z.to_nat radius)
                 (hexAdd center {| q := 0; r := - radius |}).

Definition isAdjacent (hex1 hex2 : Hex) : bool :=
  hexDistance hex1 hex2 =? 1.

(* ===================================================================== *)
(** ** String keys *)
(* ===================================================================== *)

(** [`${n}`] for an integer [n]: decimal digits, with a leading minus sign
    for a negative number (the form JavaScript prints below 1e21). *)
Definition numberToString (n : Z) : string :=
  NilZero.string_of_int (Z.to_int n).

Definition hexToKey (hex : Hex) : string :=
  String.append (numberToString (q hex))
                (String "," (numberToString (r hex))).

(** [s.split(sep)] for a one-character separator: the result is never
    empty, and the empty string splits into one empty piece. *)
Fixpoint splitOn (sep : ascii) (s : string) : list string :=
  match s with
  | EmptyString => [EmptyString]
  | String c s' =>
      if Ascii.eqb c sep then EmptyString :: splitOn sep s'
      else match splitOn sep s' with
           | piece :: pieces => String c piece :: pieces
           | [] => [String c EmptyString]
           end
  end.

(** [Number(s)] on the integer literals: the empty string is 0, an optional
    minus sign followed by decimal digits is that integer. [None] stands for
    every other outcome ([NaN], or a literal outside this fragment). *)
Definition parseNumber (s : string) : option Z :=
  match s with
  | EmptyString => Some 0
  | _ => Z.of_int <$> NilZero.int_of_string s
  end.

(** [const [q, r] = key.split(',').map(Number)]: the first two pieces.
    [None] when one of the two is missing or is not an integer, where the
    source returns a record that is not a hex. *)
Definition keyToHex (key : string) : option Hex :=
  match parseNumber <$> splitOn "," key with
  | Some kq :: Some kr :: _ => Some {| q := kq; r := kr |}
  | _ => None
  end.

(** Whether the character [c] occurs in [s]. *)
Fixpoint occursIn (c : ascii) (s : string) : bool :=
  match s with
  | EmptyString => false
  | String c' s' => Ascii.eqb c' c || occursIn c s'
  end.

(* ===================================================================== *)
(** ** Board hexes *)
(* ===================================================================== *)

Module TerrainType.
Inductive t :=
  NORMAL | DIFFICULT | HAZARD | OBSTACLE | WALL | WATER | ICE | LAVA.
#[global] Instance eq_dec : EqDecision t.
Proof. solve_decision. Defined.
End TerrainType.

Module OverlayType.
Inductive t := TRAP | TREASURE | DOOR | PRESSURE_PLATE | ALTAR | STAIRS.
#[global] Instance eq_dec : EqDecision t.
Proof. solve_decision. Defined.
End OverlayType.

Module TokenType.
Inductive t :=
  COIN | LUMBER | METAL | HIDE | ARROWVINE | AXENUT | CORPSECAP
| FLAMEFRUIT | ROCKROOT | SNOWTHISTLE.
#[global] Instance eq_dec : EqDecision t.
Proof. solve_decision. Defined.
End TokenType.

(** [GameHex extends Hex]: the coordinates are the field [coords]; every
    optional field is an [option]. *)
Record GameHex := mkGameHex {
  hex_id : string;
  coords : Hex;
  terrain : option TerrainType.t;
  overlay : option OverlayType.t;
  occupant : option string;
  items : option (list string);
  tokens : option (list TokenType.t)
}.

#[global] Instance GameHex_eq_dec : EqDecision GameHex.
Proof. solve_decision. Defined.

Definition terrainIs (hex : GameHex) (t : TerrainType.t) : bool :=
  bool_decide (terrain hex = Some t).

(** Truthiness of an optional string: [undefined] and [''] are falsy. *)
Definition truthy (s : option string) : bool :=
  match s with
  | Some (String _ _) => true
  | _ => false
  end.

Definition with_occupant (o : option string) (hex : GameHex) : GameHex :=
  {| hex_id := hex_id hex; coords := coords hex; terrain := terrain hex;
     overlay := overlay hex; occupant := o; items := items hex;
     tokens := tokens hex |}.

Definition with_terrain (t : TerrainType.t) (hex : GameHex) : GameHex :=
  {| hex_id := hex_id hex; coords := coords hex; terrain := Some t;
     overlay := overlay hex; occupant := occupant hex; items := items hex;
     tokens := tokens hex |}.

(* ===================================================================== *)
(** ** Path finding *)
(* ===================================================================== *)

Record MovementOptions := mkMovementOptions {
  range : Z;
  canFly : bool;
  canJump : bool;
  ignoreDifficultTerrain : bool;
  ignoreObstacles : bool;
  ignoreFigures : bool
}.

(** A cost is a number or [Infinity]. *)
Inductive Cost := Finite (c : Z) | Infinity.

#[global] Instance Cost_eq_dec : EqDecision Cost.
Proof. solve_decision. Defined.

Definition cost_ltb (a b : Cost) : bool :=
  match a, b with
  | Finite x, Finite y => x <? y
  | Finite _, Infinity => true
  | Infinity, _ => false
  end.

Definition cost_add (a : Cost) (z : Z) : Cost :=
  match a with
  | Finite x => Finite (x + z)
  | Infinity => Infinity
  end.

Record PathResult := mkPathResult {
  path : list Hex;
  cost : Cost;
  isValid : bool
}.

Definition isPassable (hex : GameHex) (options : MovementOptions) : bool :=
  if canFly options then
    negb (terrainIs hex TerrainType.WALL)
    && negb (terrainIs hex TerrainType.OBSTACLE)
  else if canJump options then
    negb (terrainIs hex TerrainType.WALL)
  else if terrainIs hex TerrainType.WALL || terrainIs hex TerrainType.OBSTACLE
  then ignoreObstacles options
  else if truthy (occupant hex) && negb (ignoreFigures options) then false
  else true.

Definition getMovementCost (hex : GameHex) (options : MovementOptions) : Z :=
  if canFly options then 1
  else if terrainIs hex TerrainType.DIFFICULT
          && negb (ignoreDifficultTerrain options)
  then 2
  else 1.

(** The loop of [reconstructPath] follows the parent pointers while the
    current key is a non-empty string; [fuel] bounds the number of keys
    visited, and [None] is returned when it runs out or when a key on the
    way is not the key of a hex. *)
Fixpoint reconstructLoop (fuel : nat) (cameFrom : gmap string string)
    (currentKey : string) (acc : list Hex) : option (list Hex) :=
  match fuel with
  | O => None
  | S fuel' =>
      match currentKey with
      | EmptyString => Some acc
      | _ =>
          match keyToHex currentKey with
          | None => None
          | Some h =>
              match cameFrom !! currentKey with
              | None | Some EmptyString => Some (h :: acc)
              | Some parent => reconstructLoop fuel' cameFrom parent (h :: acc)
              end
          end
      end
  end.

Definition reconstructPath (fuel : nat) (cameFrom : gmap string string)
    (current : string) (totalCost : Z) : option PathResult :=
  (fun p => {| path := p; cost := Finite totalCost; isValid := true |})
    <$> reconstructLoop fuel cameFrom current [].

(** The state of the search: the open set in insertion order, and the three
    maps. *)
Record Search := mkSearch {
  openSet : list string;
  cameFrom : gmap string string;
  gScore : gmap string Z;
  fScore : gmap string Z
}.

Definition scoreOf (scores : gmap string Z) (key : string) : Cost :=
  match scores !! key with
  | Some g => Finite g
  | None => Infinity
  end.

(** The node of the open set with the lowest [fScore]; the first one in
    iteration order among equals, since the comparison is strict. *)
Definition lowestFScore (nodes : list string) (scores : gmap string Z)
  : string * Cost :=
  foldl (fun acc node =>
           let f := scoreOf scores node in
           if cost_ltb f (snd acc) then (node, f) else acc)
        (EmptyString, Infinity) nodes.

Definition setAdd (key : string) (set : list string) : list string :=
  if bool_decide (key ∈ set) then set else set ++ [key].

Definition setDelete (key : string) (set : list string) : list string :=
  filter (fun k => k ≠ key) set.

(** One iteration of the loop over the neighbors of [current]. *)
Definition visitNeighbor (goal : Hex) (gameMap : gmap string GameHex)
    (options : MovementOptions) (current : string)
    (s : Search) (neighbor : Hex) : Search :=
  let neighborKey := hexToKey neighbor in
  match gameMap !! neighborKey with
  | None => s
  | Some neighborHex =>
      if negb (isPassable neighborHex options) then s
      else
        let moveCost := getMovementCost neighborHex options in
        let tentativeG := cost_add (scoreOf (gScore s) current) moveCost in
        if cost_ltb tentativeG (scoreOf (gScore s) neighborKey) then
          match tentativeG with
          | Finite g =>
              {| cameFrom := <[neighborKey := current]> (cameFrom s);
                 gScore := <[neighborKey := g]> (gScore s);
                 fScore := <[neighborKey := g + hexDistance neighbor goal]>
                             (fScore s);
                 openSet := setAdd neighborKey (openSet s) |}
          | Infinity => s
          end
        else s
  end.

Definition notFound : PathResult :=
  {| path := []; cost := Infinity; isValid := false |}.

(** The [while (openSet.size > 0)] loop, at most [fuel] iterations. *)
Fixpoint searchLoop (fuel : nat) (goal : Hex) (gameMap : gmap string GameHex)
    (options : MovementOptions) (s : Search) : option PathResult :=
  match fuel with
  | O => None
  | S fuel' =>
      match openSet s with
      | [] => Some notFound
      | _ =>
          let current := fst (lowestFScore (openSet s) (fScore s)) in
          match keyToHex current with
          | None => None
          | Some currentHex =>
              if hexEquals currentHex goal then
                reconstructPath (S (size (cameFrom s))) (cameFrom s) current
                                (default 0 (gScore s !! current))
              else
                let s' := {| openSet := setDelete current (openSet s);
                             cameFrom := cameFrom s;
                             gScore := gScore s;
                             fScore := fScore s |} in
                searchLoop fuel' goal gameMap options
                  (foldl (visitNeighbor goal gameMap options current) s'
                         (getNeighbors currentHex))
          end
      end
  end.

(** [findPath], with a bound [fuel] on the iterations of the search loop;
    [None] when the bound is reached before the loop returns. *)
Definition findPath (fuel : nat) (start goal : Hex)
    (gameMap : gmap string GameHex) (options : MovementOptions)
  : option PathResult :=
  if range options <? hexDistance start goal then Some notFound
  else
    searchLoop fuel goal gameMap options
      {| openSet := [hexToKey start];
         cameFrom := ∅;
         gScore := {[ hexToKey start := 0 ]};
         fScore := {[ hexToKey start := hexDistance start goal ]} |}.

(* ===================================================================== *)
(** ** Line of sight *)
(* ===================================================================== *)

(** The argument of [hexRound]: a hex with fractional coordinates. *)
Record FractionalHex := mkFractionalHex { fq : Q; fr : Q }.

(** [Math.round]: the nearest integer, halves rounded up. *)
Definition Math_round (x : Q) : Z := Qfloor (x + (1 # 2)).

Definition Qgtb (a b : Q) : bool := negb (Qle_bool a b).

Definition hexRound (hex : FractionalHex) : Hex :=
  let s := (- fq hex - fr hex)%Q in
  let rq := Math_round (fq hex) in
  let rr := Math_round (fr hex) in
  let rs := Math_round s in
  let qDiff := Qabs (inject_Z rq - fq hex) in
  let rDiff := Qabs (inject_Z rr - fr hex) in
  let sDiff := Qabs (inject_Z rs - s) in
  if Qgtb qDiff rDiff && Qgtb qDiff sDiff then {| q := - rr - rs; r := rr |}
  else if Qgtb rDiff sDiff then {| q := rq; r := - rq - rs |}
  else {| q := rq; r := rr |}.

Definition getHexLine (start target : Hex) : list Hex :=
  let distance := hexDistance start target in
  (fun i : Z =>
     let t : Q := if distance =? 0 then 0%Q
                  else (inject_Z i / inject_Z distance)%Q in
     let x := (inject_Z (q start) + inject_Z (q target - q start) * t)%Q in
     let y := (inject_Z (r start) + inject_Z (r target - r start) * t)%Q in
     hexRound {| fq := x; fr := y |})
    <$> seqZ 0 (distance - 0 + 1).

Definition blocksSight (hex : GameHex) : bool :=
  terrainIs hex TerrainType.WALL || terrainIs hex TerrainType.OBSTACLE.

(** The loop of [hasLineOfSight] over the indices [i]; an index is always
    inside [line] here, since the loop stops before [line.length - 1]. *)
Fixpoint sightLoop (line : list Hex) (gameMap : gmap string GameHex)
    (indices : list nat) : bool :=
  match indices with
  | [] => true
  | i :: rest =>
      match line !! i with
      | None => true
      | Some h =>
          match gameMap !! hexToKey h with
          | None => sightLoop line gameMap rest
          | Some hex =>
              if blocksSight hex then false
              else sightLoop line gameMap rest
          end
      end
  end.

Definition hasLineOfSight (start target : Hex)
    (gameMap : gmap string GameHex) : bool :=
  if hexEquals start target then true
  else
    let line := getHexLine start target in
    sightLoop line gameMap (seq 1 (length line - 1 - 1)).

(* ===================================================================== *)
(** ** Game state *)
(* ===================================================================== *)

Module Element.
Inductive t := FIRE | ICE | AIR | EARTH | LIGHT | DARK.
#[global] Instance eq_dec : EqDecision t.
Proof. solve_decision. Defined.
(** [Object.values(Element)], in declaration order. *)
Definition values : list t := [FIRE; ICE; AIR; EARTH; LIGHT; DARK].
End Element.

Module ElementState.
Inductive t := INERT | WANING | STRONG.
#[global] Instance eq_dec : EqDecision t.
Proof. solve_decision. Defined.
End ElementState.

Module GamePhase.
Inductive t :=
  CAMPAIGN_MANAGEMENT | SCENARIO_SETUP | SCENARIO_PLAY | SCENARIO_CLEANUP.
End GamePhase.

Module RoundPhase.
Inductive t := CARD_SELECTION | INITIATIVE_REVEAL | ACTIONS | END_OF_ROUND.
End RoundPhase.

Module CharacterClass.
Inductive t :=
  BRUTE | TINKERER | SPELLWEAVER | SCOUNDREL | CRAGHEART | MINDTHIEF.
End CharacterClass.

(** An object with one cell per element. *)
Record ElementTracker := mkElementTracker {
  fire : ElementState.t;
  ice : ElementState.t;
  air : ElementState.t;
  earth : ElementState.t;
  light : ElementState.t;
  dark : ElementState.t
}.

(** [tracker[element]]. *)
Definition getElement (tracker : ElementTracker) (element : Element.t)
  : ElementState.t :=
  match element with
  | Element.FIRE => fire tracker
  | Element.ICE => ice tracker
  | Element.AIR => air tracker
  | Element.EARTH => earth tracker
  | Element.LIGHT => light tracker
  | Element.DARK => dark tracker
  end.

(** [tracker[element] = state]. *)
Definition setElement (element : Element.t) (state : ElementState.t)
    (tracker : ElementTracker) : ElementTracker :=
  match element with
  | Element.FIRE =>
      {| fire := state; ice := ice tracker; air := air tracker;
         earth := earth tracker; light := light tracker; dark := dark tracker |}
  | Element.ICE =>
      {| fire := fire tracker; ice := state; air := air tracker;
         earth := earth tracker; light := light tracker; dark := dark tracker |}
  | Element.AIR =>
      {| fire := fire tracker; ice := ice tracker; air := state;
         earth := earth tracker; light := light tracker; dark := dark tracker |}
  | Element.EARTH =>
      {| fire := fire tracker; ice := ice tracker; air := air tracker;
         earth := state; light := light tracker; dark := dark tracker |}
  | Element.LIGHT =>
      {| fire := fire tracker; ice := ice tracker; air := air tracker;
         earth := earth tracker; light := state; dark := dark tracker |}
  | Element.DARK =>
      {| fire := fire tracker; ice := ice tracker; air := air tracker;
         earth := earth tracker; light := light tracker; dark := state |}
  end.

Definition createInitialElementTracker : ElementTracker :=
  {| fire := ElementState.INERT; ice := ElementState.INERT;
     air := ElementState.INERT; earth := ElementState.INERT;
     light := ElementState.INERT; dark := ElementState.INERT |}.

(** A character. The card piles, the modifier deck, the equipment, the
    conditions, the quest, the battle goal and the perks are neither read
    nor written by the actions below and are left out. *)
Record Character := mkCharacter {
  char_id : string;
  char_class : CharacterClass.t;
  level : Z;
  experience : Z;
  currentHP : Z;
  maxHP : Z;
  handSize : Z;
  gold : Z;
  checkmarks : Z;
  position : option Hex
}.

Definition with_position (p : option Hex) (c : Character) : Character :=
  {| char_id := char_id c; char_class := char_class c; level := level c;
     experience := experience c; currentHP := currentHP c; maxHP := maxHP c;
     handSize := handSize c; gold := gold c; checkmarks := checkmarks c;
     position := p |}.

Record BoardBounds := mkBoardBounds { minQ : Z; maxQ : Z; minR : Z; maxR : Z }.

(** A number that may be [NaN] is an [option Z] with [None] for [NaN]. *)
Record BoardMetadata := mkBoardMetadata {
  meta_name : string;
  difficulty : option Z;
  recommendedLevel : option Z;
  maxPlayers : Z
}.

(** The board of a scenario; [tiles] starts empty and is never written. *)
Record GameBoard := mkGameBoard {
  board_id : string;
  board_scenario : string;
  hexes : gmap string GameHex;
  bounds : BoardBounds;
  metadata : BoardMetadata
}.

Record InitiativeEntry := mkInitiativeEntry {
  figureId : string;
  figureIsPlayer : bool;
  entry_initiative : Z;
  isLongRest : bool
}.

(** The scenario in play; [monsters], [objectives] and [treasures] start
    empty and are never written. *)
Record ScenarioState := mkScenarioState {
  scenario_id : Z;
  scenario_level : option Z;
  mapState : GameBoard;
  scenario_elements : ElementTracker;
  round : Z;
  initiative : list InitiativeEntry;
  phase : RoundPhase.t
}.

Record CampaignState := mkCampaignState {
  campaign_name : string;
  reputation : Z;
  prosperity : Z;
  donations : Z;
  scenariosCompleted : gset Z;
  scenariosUnlocked : gset Z
}.

Record PartyState := mkPartyState {
  location : string;
  members : list string;
  party_reputation : Z;
  notes : string
}.

Record GloomhavenGameState := mkGameState {
  campaign : CampaignState;
  scenario : option ScenarioState;
  characters : gmap string Character;
  party : PartyState;
  gamePhase : GamePhase.t
}.

Definition createInitialGameState : GloomhavenGameState :=
  {| campaign :=
       {| campaign_name := "New Campaign"; reputation := 0; prosperity := 1;
          donations := 0; scenariosCompleted := ∅;
          scenariosUnlocked := {[ 1 ]} |};
     scenario := None;
     characters := ∅;
     party := {| location := "Gloomhaven"; members := [];
                 party_reputation := 0; notes := "" |};
     gamePhase := GamePhase.CAMPAIGN_MANAGEMENT |}.

(** Field updates of the draft. *)
Definition with_hexes (hs : gmap string GameHex) (sc : ScenarioState)
  : ScenarioState :=
  {| scenario_id := scenario_id sc; scenario_level := scenario_level sc;
     mapState := {| board_id := board_id (mapState sc);
                    board_scenario := board_scenario (mapState sc);
                    hexes := hs;
                    bounds := bounds (mapState sc);
                    metadata := metadata (mapState sc) |};
     scenario_elements := scenario_elements sc; round := round sc;
     initiative := initiative sc; phase := phase sc |}.

Definition with_elements (tracker : ElementTracker) (sc : ScenarioState)
  : ScenarioState :=
  {| scenario_id := scenario_id sc; scenario_level := scenario_level sc;
     mapState := mapState sc; scenario_elements := tracker;
     round := round sc; initiative := initiative sc; phase := phase sc |}.

Definition with_scenario (sc : option ScenarioState)
    (st : GloomhavenGameState) : GloomhavenGameState :=
  {| campaign := campaign st; scenario := sc; characters := characters st;
     party := party st; gamePhase := gamePhase st |}.

Definition with_characters (cs : gmap string Character)
    (st : GloomhavenGameState) : GloomhavenGameState :=
  {| campaign := campaign st; scenario := scenario st; characters := cs;
     party := party st; gamePhase := gamePhase st |}.

(* --------------------------------------------------------------------- *)
(** *** Character and party actions *)

Definition moveCharacter (characterId : string) (targetHex : Hex)
    (st : GloomhavenGameState) : GloomhavenGameState :=
  match characters st !! characterId, scenario st with
  | Some character, Some sc =>
      (* Remove character from old position *)
      let hexes1 :=
        match position character with
        | Some oldPosition =>
            match hexes (mapState sc) !! hexToKey oldPosition with
            | Some oldHex =>
                if bool_decide (occupant oldHex = Some characterId) then
                  <[hexToKey oldPosition := with_occupant None oldHex]>
                    (hexes (mapState sc))
                else hexes (mapState sc)
            | None => hexes (mapState sc)
            end
        | None => hexes (mapState sc)
        end in
      (* Move to new position *)
      let character' := with_position (Some targetHex) character in
      let hexes2 :=
        match hexes1 !! hexToKey targetHex with
        | Some newHex =>
            <[hexToKey targetHex := with_occupant (Some characterId) newHex]>
              hexes1
        | None => hexes1
        end in
      with_scenario (Some (with_hexes hexes2 sc))
        (with_characters (<[characterId := character']> (characters st)) st)
  | _, _ => st
  end.

Definition updatePartyReputation (change : Z) (st : GloomhavenGameState)
  : GloomhavenGameState :=
  {| campaign := campaign st; scenario := scenario st;
     characters := characters st;
     party := {| location := location (party st);
                 members := members (party st);
                 party_reputation :=
                   Z.max (-20) (Z.min 20 (party_reputation (party st) + change));
                 notes := notes (party st) |};
     gamePhase := gamePhase st |}.

Definition updateReputation (change : Z) (st : GloomhavenGameState)
  : GloomhavenGameState :=
  {| campaign :=
       {| campaign_name := campaign_name (campaign st);
          reputation :=
            Z.max (-20) (Z.min 20 (reputation (campaign st) + change));
          prosperity := prosperity (campaign st);
          donations := donations (campaign st);
          scenariosCompleted := scenariosCompleted (campaign st);
          scenariosUnlocked := scenariosUnlocked (campaign st) |};
     scenario := scenario st; characters := characters st;
     party := party st; gamePhase := gamePhase st |}.

(* --------------------------------------------------------------------- *)
(** *** Element actions *)

Definition infuseElement (element : Element.t) (st : GloomhavenGameState)
  : GloomhavenGameState :=
  match scenario st with
  | Some sc =>
      with_scenario
        (Some (with_elements
                 (setElement element ElementState.STRONG (scenario_elements sc))
                 sc)) st
  | None => st
  end.

(** [consumeElement] reads the cell through [get()], and opens a draft only
    on the successful branch; the result is the returned boolean and the
    state of the store after the call. *)
Definition consumeElement (element : Element.t) (st : GloomhavenGameState)
  : bool * GloomhavenGameState :=
  let state := (fun sc => getElement (scenario_elements sc) element)
                 <$> scenario st in
  if bool_decide (state = Some ElementState.STRONG)
     || bool_decide (state = Some ElementState.WANING)
  then
    (true,
     match scenario st with
     | Some sc =>
         with_scenario
           (Some (with_elements
                    (setElement element ElementState.INERT
                                (scenario_elements sc)) sc)) st
     | None => st
     end)
  else (false, st).

(** The body of the loop of [waneElements] for one element. *)
Definition waneOne (tracker : ElementTracker) (element : Element.t)
  : ElementTracker :=
  let currentState := getElement tracker element in
  if bool_decide (currentState = ElementState.STRONG) then
    setElement element ElementState.WANING tracker
  else if bool_decide (currentState = ElementState.WANING) then
    setElement element ElementState.INERT tracker
  else tracker.

Definition waneElements (st : GloomhavenGameState) : GloomhavenGameState :=
  match scenario st with
  | Some sc =>
      with_scenario
        (Some (with_elements
                 (foldl waneOne (scenario_elements sc) Element.values) sc)) st
  | None => st
  end.

(* --------------------------------------------------------------------- *)
(** *** Scenario start *)

(** [characters.reduce((sum, char) => sum + char.level, 0) / characters.length]:
    [NaN] (here [None]) for an empty array, the exact quotient otherwise. *)
Definition averageLevelOf (chars : list Character) : option Q :=
  match chars with
  | [] => None
  | _ =>
      let total := foldl (fun sum char => sum + level char) 0 chars in
      Some (inject_Z total / inject_Z (Z.of_nat (length chars)))%Q
  end.

(** The starting grid of [startScenario]: both coordinates in [-2 .. 2]. *)
Definition startingHexMap : gmap string GameHex :=
  foldl (fun hexMap h =>
           <[hexToKey h :=
               {| hex_id := String.append "hex-"
                              (String.append (numberToString (q h))
                                 (String "-" (numberToString (r h))));
                  coords := h;
                  terrain := Some TerrainType.NORMAL;
                  overlay := None; occupant := None;
                  items := Some []; tokens := Some [] |}]> hexMap)
        ∅
        (seqZ (-2) (2 - (-2) + 1) ≫= fun hq =>
           (fun hr => {| q := hq; r := hr |}) <$> seqZ (-2) (2 - (-2) + 1)).

(** One call of the [forEach] callback that places a party member. *)
Definition placeMember (partySize : nat)
    (acc : gmap string Character * gmap string GameHex)
    (entry : nat * string)
  : gmap string Character * gmap string GameHex :=
  let '(index, characterId) := entry in
  let startPosition :=
    {| q := Z.of_nat index - Z.of_nat partySize / 2; r := 0 |} in
  match acc.1 !! characterId with
  | Some character =>
      (<[characterId := with_position (Some startPosition) character]> acc.1,
       match acc.2 !! hexToKey startPosition with
       | Some hex =>
           <[hexToKey startPosition := with_occupant (Some characterId) hex]>
             acc.2
       | None => acc.2
       end)
  | None => acc
  end.

Definition startScenario (scenarioId : Z) (partyMembers : list string)
    (st : GloomhavenGameState) : GloomhavenGameState :=
  (* Calculate scenario difficulty *)
  let chars := omap (fun id => characters st !! id) partyMembers in
  let averageLevel := averageLevelOf chars in
  let scenarioLevel :=
    (fun a => Z.max 0 (Qfloor (a / 2))) <$> averageLevel in
  (* Apply 5-player modification *)
  let scenarioLevel :=
    if (length partyMembers =? 5)%nat
    then (fun l => l + 2) <$> scenarioLevel
    else scenarioLevel in
  let placed :=
    foldl (placeMember (length partyMembers))
          (characters st, startingHexMap)
          (imap (fun index characterId => (index, characterId)) partyMembers) in
  let name := String.append "Scenario " (numberToString scenarioId) in
  {| campaign := campaign st;
     scenario :=
       Some {| scenario_id := scenarioId;
               scenario_level := scenarioLevel;
               mapState :=
                 {| board_id := String.append "scenario-"
                                  (numberToString scenarioId);
                    board_scenario := name;
                    hexes := placed.2;
                    bounds := {| minQ := -2; maxQ := 2; minR := -2; maxR := 2 |};
                    metadata :=
                      {| meta_name := name;
                         difficulty := scenarioLevel;
                         recommendedLevel := Qfloor <$> averageLevel;
                         maxPlayers := 5 |} |};
               scenario_elements := createInitialElementTracker;
               round := 1;
               initiative := [];
               phase := RoundPhase.CARD_SELECTION |};
     characters := placed.1;
     party := party st;
     gamePhase := GamePhase.SCENARIO_PLAY |}.

(* ===================================================================== *)
(** ** Range and area calculations *)
(* ===================================================================== *)

(** [getValidTargets]: the board hexes found under the keys of the hexes in
    reach, filtered as in the source. The filters on the attacker's position
    and on the line of sight read the coordinates stored in the hex. *)
Definition getValidTargets (attacker : Hex) (range : Z)
    (gameMap : gmap string GameHex) : list GameHex :=
  if range =? 0 then
    filter (fun hex => truthy (occupant hex) = true)
      (omap (fun hex => gameMap !! hexToKey hex) (getNeighbors attacker))
  else
    let hexesInRange := getHexesInRange attacker range in
    filter (fun hex => hasLineOfSight attacker (coords hex) gameMap = true)
      (filter (fun hex => hexEquals attacker (coords hex) = false)
         (filter (fun hex => truthy (occupant hex) = true)
            (omap (fun hex => gameMap !! hexToKey hex) hexesInRange))).

(* ===================================================================== *)
(** ** The other store actions and the selectors *)
(* ===================================================================== *)

Definition with_party (p : PartyState) (st : GloomhavenGameState)
  : GloomhavenGameState :=
  {| campaign := campaign st; scenario := scenario st;
     characters := characters st; party := p; gamePhase := gamePhase st |}.

Definition with_members (ms : list string) (p : PartyState) : PartyState :=
  {| location := location p; members := ms;
     party_reputation := party_reputation p; notes := notes p |}.

Definition with_campaign (c : CampaignState) (st : GloomhavenGameState)
  : GloomhavenGameState :=
  {| campaign := c; scenario := scenario st; characters := characters st;
     party := party st; gamePhase := gamePhase st |}.

Definition with_gamePhase (ph : GamePhase.t) (st : GloomhavenGameState)
  : GloomhavenGameState :=
  {| campaign := campaign st; scenario := scenario st;
     characters := characters st; party := party st; gamePhase := ph |}.

Definition with_phase (ph : RoundPhase.t) (sc : ScenarioState)
  : ScenarioState :=
  {| scenario_id := scenario_id sc; scenario_level := scenario_level sc;
     mapState := mapState sc; scenario_elements := scenario_elements sc;
     round := round sc; initiative := initiative sc; phase := ph |}.

Definition with_initiative (order : list InitiativeEntry) (sc : ScenarioState)
  : ScenarioState :=
  {| scenario_id := scenario_id sc; scenario_level := scenario_level sc;
     mapState := mapState sc; scenario_elements := scenario_elements sc;
     round := round sc; initiative := order; phase := phase sc |}.

Definition setGamePhase (ph : GamePhase.t) (st : GloomhavenGameState)
  : GloomhavenGameState :=
  with_gamePhase ph st.

Definition addCharacter (character : Character) (st : GloomhavenGameState)
  : GloomhavenGameState :=
  with_characters (<[char_id character := character]> (characters st)) st.

(** [const i = members.indexOf(id); if (i > -1) members.splice(i, 1)]:
    the first occurrence is taken out. *)
Definition spliceOut (characterId : string) (ms : list string) : list string :=
  match list_find (fun m => m = characterId) ms with
  | Some (index, _) => delete index ms
  | None => ms
  end.

Definition removeCharacter (characterId : string) (st : GloomhavenGameState)
  : GloomhavenGameState :=
  with_party (with_members (spliceOut characterId (members (party st)))
                           (party st))
    (with_characters (delete characterId (characters st)) st).

Definition addToParty (characterId : string) (st : GloomhavenGameState)
  : GloomhavenGameState :=
  if bool_decide (characterId ∈ members (party st)) then st
  else with_party (with_members (members (party st) ++ [characterId])
                                (party st)) st.

Definition removeFromParty (characterId : string) (st : GloomhavenGameState)
  : GloomhavenGameState :=
  with_party (with_members (spliceOut characterId (members (party st)))
                           (party st)) st.

Definition updatePartyLocation (loc : string) (st : GloomhavenGameState)
  : GloomhavenGameState :=
  with_party {| location := loc; members := members (party st);
                party_reputation := party_reputation (party st);
                notes := notes (party st) |} st.

Definition addCompleted (scenarioId : Z) (c : CampaignState) : CampaignState :=
  {| campaign_name := campaign_name c; reputation := reputation c;
     prosperity := prosperity c; donations := donations c;
     scenariosCompleted := {[ scenarioId ]} ∪ scenariosCompleted c;
     scenariosUnlocked := scenariosUnlocked c |}.

Definition endScenario (success : bool) (st : GloomhavenGameState)
  : GloomhavenGameState :=
  {| campaign :=
       match scenario st with
       | Some sc => if success then addCompleted (scenario_id sc) (campaign st)
                    else campaign st
       | None => campaign st
       end;
     scenario := None;
     characters := characters st;
     party := party st;
     gamePhase := GamePhase.CAMPAIGN_MANAGEMENT |}.

Definition updateScenarioPhase (ph : RoundPhase.t) (st : GloomhavenGameState)
  : GloomhavenGameState :=
  match scenario st with
  | Some sc => with_scenario (Some (with_phase ph sc)) st
  | None => st
  end.

Definition setInitiativeOrder (order : list InitiativeEntry)
    (st : GloomhavenGameState) : GloomhavenGameState :=
  match scenario st with
  | Some sc => with_scenario (Some (with_initiative order sc)) st
  | None => st
  end.

Definition getCurrentCharacter (st : GloomhavenGameState) : option Character :=
  match scenario st with
  | None => None
  | Some sc =>
      match initiative sc with
      | [] => None
      | currentEntry :: _ =>
          if figureIsPlayer currentEntry
          then characters st !! figureId currentEntry
          else None
      end
  end.

(** [nextTurn]: [findIndex] gives -1 when no entry matches, and an entry
    never matches when there is no current character. *)
Definition nextTurn (st : GloomhavenGameState) : GloomhavenGameState :=
  match scenario st with
  | Some sc =>
      let currentId := char_id <$> getCurrentCharacter st in
      let currentIndex :=
        match list_find (fun entry => Some (figureId entry) = currentId)
                        (initiative sc) with
        | Some (i, _) => Z.of_nat i
        | None => -1
        end in
      if Z.of_nat (length (initiative sc)) - 1 <=? currentIndex
      then with_scenario (Some (with_phase RoundPhase.END_OF_ROUND sc)) st
      else st
  | None => st
  end.

Definition endRound (st : GloomhavenGameState) : GloomhavenGameState :=
  match scenario st with
  | Some sc =>
      with_scenario
        (Some {| scenario_id := scenario_id sc;
                 scenario_level := scenario_level sc;
                 mapState := mapState sc;
                 scenario_elements :=
                   foldl waneOne (scenario_elements sc) Element.values;
                 round := round sc + 1;
                 initiative := [];
                 phase := RoundPhase.CARD_SELECTION |}) st
  | None => st
  end.

Definition completeScenario (scenarioId : Z) (st : GloomhavenGameState)
  : GloomhavenGameState :=
  with_campaign (addCompleted scenarioId (campaign st)) st.

Definition unlockScenario (scenarioId : Z) (st : GloomhavenGameState)
  : GloomhavenGameState :=
  with_campaign
    {| campaign_name := campaign_name (campaign st);
       reputation := reputation (campaign st);
       prosperity := prosperity (campaign st);
       donations := donations (campaign st);
       scenariosCompleted := scenariosCompleted (campaign st);
       scenariosUnlocked := {[ scenarioId ]} ∪ scenariosUnlocked (campaign st) |}
    st.

Definition updateProsperity (change : Z) (st : GloomhavenGameState)
  : GloomhavenGameState :=
  with_campaign
    {| campaign_name := campaign_name (campaign st);
       reputation := reputation (campaign st);
       prosperity := Z.max 1 (prosperity (campaign st) + change);
       donations := donations (campaign st);
       scenariosCompleted := scenariosCompleted (campaign st);
       scenariosUnlocked := scenariosUnlocked (campaign st) |}
    st.

Definition getActiveCharacters (st : GloomhavenGameState) : list Character :=
  omap (fun id => characters st !! id) (members (party st)).

Definition getCharacterAtPosition (hex : Hex) (st : GloomhavenGameState)
  : option Character :=
  match scenario st with
  | None => None
  | Some sc =>
      match hexes (mapState sc) !! hexToKey hex with
      | Some gameHex =>
          if truthy (occupant gameHex)
          then occupant gameHex ≫= fun id => characters st !! id
          else None
      | None => None
      end
  end.

Definition isElementAvailable (element : Element.t) (st : GloomhavenGameState)
  : bool :=
  match scenario st with
  | None => false
  | Some sc =>
      let elementState := getElement (scenario_elements sc) element in
      bool_decide (elementState = ElementState.STRONG)
      || bool_decide (elementState = ElementState.WANING)
  end.

(** A call of a store action, and the state after it. *)
Inductive StoreCall :=
| SetGamePhase (ph : GamePhase.t)
| AddCharacter (character : Character)
| RemoveCharacter (characterId : string)
| MoveCharacter (characterId : string) (targetHex : Hex)
| AddToParty (characterId : string)
| RemoveFromParty (characterId : string)
| UpdatePartyLocation (loc : string)
| CallUpdatePartyReputation (change : Z)
| StartScenario (scenarioId : Z) (partyMembers : list string)
| EndScenario (success : bool)
| UpdateScenarioPhase (ph : RoundPhase.t)
| SetInitiativeOrder (order : list InitiativeEntry)
| NextTurn
| EndRound
| InfuseElement (element : Element.t)
| ConsumeElement (element : Element.t)
| WaneElements
| CompleteScenario (scenarioId : Z)
| UnlockScenario (scenarioId : Z)
| CallUpdateReputation (change : Z)
| UpdateProsperity (change : Z).

Definition runStoreCall (st : GloomhavenGameState) (c : StoreCall)
  : GloomhavenGameState :=
  match c with
  | SetGamePhase ph => setGamePhase ph st
  | AddCharacter character => addCharacter character st
  | RemoveCharacter characterId => removeCharacter characterId st
  | MoveCharacter characterId targetHex => moveCharacter characterId targetHex st
  | AddToParty characterId => addToParty characterId st
  | RemoveFromParty characterId => removeFromParty characterId st
  | UpdatePartyLocation loc => updatePartyLocation loc st
  | CallUpdatePartyReputation change => updatePartyReputation change st
  | StartScenario scenarioId partyMembers =>
      startScenario scenarioId partyMembers st
  | EndScenario success => endScenario success st
  | UpdateScenarioPhase ph => updateScenarioPhase ph st
  | SetInitiativeOrder order => setInitiativeOrder order st
  | NextTurn => nextTurn st
  | EndRound => endRound st
  | InfuseElement element => infuseElement element st
  | ConsumeElement element => snd (consumeElement element st)
  | WaneElements => waneElements st
  | CompleteScenario scenarioId => completeScenario scenarioId st
  | UnlockScenario scenarioId => unlockScenario scenarioId st
  | CallUpdateReputation change => updateReputation change st
  | UpdateProsperity change => updateProsperity change st
  end.

(** What every sequence of store calls keeps true. *)
Definition storeInvariant (st : GloomhavenGameState) : Prop :=
  -20 <= reputation (campaign st) <= 20
  /\ -20 <= party_reputation (party st) <= 20
  /\ 1 <= prosperity (campaign st)
  /\ 1 ∈ scenariosUnlocked (campaign st)
  /\ NoDup (members (party st)).

(** A board whose hexes are stored under the key of their own
    coordinates, as the boards built by the code are. *)
Definition keyedByCoords (gameMap : gmap string GameHex) : Prop :=
  map_Forall (fun key hex => key = hexToKey (coords hex)) gameMap.

(** The hex is on the board and can be entered under the options. *)
Definition onBoardPassable (gameMap : gmap string GameHex)
    (options : MovementOptions) (h : Hex) : Prop :=
  exists hex, gameMap !! hexToKey h = Some hex /\ isPassable hex options = true.

(** A legal step of a path: to a neighbor that is on the board and can be
    entered. *)
Definition stepOK (gameMap : gmap string GameHex) (options : MovementOptions)
    (a b : Hex) : Prop :=
  b ∈ getNeighbors a /\ onBoardPassable gameMap options b.

(** The key is the start key or has a parent pointer. *)
Definition reachedKey (start : Hex) (cf : gmap string string) (k : string)
  : Prop :=
  k = hexToKey start \/ is_Some (cf !! k).

(** Every parent pointer goes from the key of a board hex that can be
    entered to the key of one of its neighbors, itself reached. *)
Definition parentsOK (start : Hex) (gameMap : gmap string GameHex)
    (options : MovementOptions) (cf : gmap string string) : Prop :=
  forall k p, cf !! k = Some p ->
    reachedKey start cf p
    /\ exists hp n, keyToHex p = Some hp /\ n ∈ getNeighbors hp
                    /\ k = hexToKey n /\ onBoardPassable gameMap options n.

(** The invariant of the search loop. *)
Definition searchInv (start : Hex) (gameMap : gmap string GameHex)
    (options : MovementOptions) (s : Search) : Prop :=
  (forall k, k ∈ openSet s ->
             reachedKey start (cameFrom s) k /\ is_Some (gScore s !! k))
  /\ parentsOK start gameMap options (cameFrom s)
  /\ (forall k g, gScore s !! k = Some g ->
         exists h, keyToHex k = Some h /\ hexDistance start h <= g).

(** The hex where [startScenario] puts the party member of index [index]:
    on row 0, the party centered on the origin. *)
Definition startPosition (partySize index : nat) : Hex :=
  {| q := Z.of_nat index - Z.of_nat partySize / 2; r := 0 |}.

(** [hs'] has the keys of [hs], and under each key the same hex up to its
    occupant. *)
Definition sameShape (hs hs' : gmap string GameHex) : Prop :=
  dom hs' = dom hs
  /\ forall k hex', hs' !! k = Some hex' ->
       exists hex, hs !! k = Some hex
                   /\ hex' = with_occupant (occupant hex') hex.

(** The board of the target selection tests of [types.test.ts]. *)
Definition targetTestMap : gmap string GameHex :=
  foldl (fun map '(h, occ) =>
           <[hexToKey h :=
               {| hex_id := String.append "hex-"
                              (String.append (numberToString (q h))
                                 (String "-" (numberToString (r h))));
                  coords := h;
                  terrain := Some TerrainType.NORMAL;
                  overlay := None; occupant := occ;
                  items := None; tokens := None |}]> map)
        ∅
        [(mkHex 0 0, Some "attacker"); (mkHex 1 0, Some "target1");
         (mkHex 0 1, Some "target2"); (mkHex 2 0, Some "target3");
         (mkHex 1 1, None)].

(* ===================================================================== *)
(** ** Reference notions used by the statements *)
(* ===================================================================== *)

(** [get().gameState.scenario?.elements[element]]: the cell of an element,
    [None] without a scenario. *)
Definition elementState (element : Element.t) (st : GloomhavenGameState)
  : option ElementState.t :=
  (fun sc => getElement (scenario_elements sc) element) <$> scenario st.

(** The end-of-round transition of one cell of the element automaton. *)
Definition waneStep (s : ElementState.t) : ElementState.t :=
  match s with
  | ElementState.STRONG => ElementState.WANING
  | ElementState.WANING => ElementState.INERT
  | ElementState.INERT => ElementState.INERT
  end.

(** The average of a list of levels: [None] (not a number) for the empty
    list, the exact quotient of the sum by the length otherwise. *)
Definition averageOfLevels (levels : list Z) : option Q :=
  if bool_decide (levels = []) then None
  else
    let total := foldr Z.add 0 levels in
    Some (inject_Z total / inject_Z (Z.of_nat (length levels)))%Q.

(** [floor(L / 2)] for an average [L]. *)
Definition floorHalf (L : option Q) : option Z :=
  (fun x => Qfloor (x / 2)) <$> L.

(** The two reputation updates, as calls on the store. *)
Inductive ReputationCall :=
| UpdateReputation (change : Z)
| UpdatePartyReputation (change : Z).

Definition runReputationCall (st : GloomhavenGameState) (c : ReputationCall)
  : GloomhavenGameState :=
  match c with
  | UpdateReputation change => updateReputation change st
  | UpdatePartyReputation change => updatePartyReputation change st
  end.

(** Both reputations are inside the interval of the clamp. *)
Definition reputationsInRange (st : GloomhavenGameState) : Prop :=
  -20 <= reputation (campaign st) <= 20
  /\ -20 <= party_reputation (party st) <= 20.

Definition sampleCharacter (id : string) (lv : Z) : Character :=
  {| char_id := id; char_class := CharacterClass.BRUTE; level := lv;
     experience := 0; currentHP := 10; maxHP := 10; handSize := 10;
     gold := 0; checkmarks := 0; position := None |}.

(** A store with five characters of levels 3, 4, 9, 1 and 2. *)
Definition sampleStore : GloomhavenGameState :=
  with_characters
    (<["a" := sampleCharacter "a" 3]>
       (<["b" := sampleCharacter "b" 4]>
          (<["c" := sampleCharacter "c" 9]>
             (<["d" := sampleCharacter "d" 1]>
                (<["e" := sampleCharacter "e" 2]> ∅)))))
    createInitialGameState.

(** A scenario in play for three characters, placed on [(-1, 0)],
    [(0, 0)] and [(1, 0)]. *)
Definition sampleScenario : GloomhavenGameState :=
  startScenario 1 ["a"; "b"; "c"] sampleStore.

(** A scenario in play for one character, with Fire infused. *)
Definition sampleInfused : GloomhavenGameState :=
  infuseElement Element.FIRE (startScenario 1 ["a"] sampleStore).

(* ===================================================================== *)
(** ** Boards of the test suite *)
(* ===================================================================== *)

(** [createTestMap] of [types.test.ts]: every hex with both coordinates in
    [lo .. hi], Normal terrain, nothing else set. *)
Definition createTestMap (lo hi : Z) : gmap string GameHex :=
  foldl (fun map h =>
           <[hexToKey h :=
               {| hex_id := String.append "hex-"
                              (String.append (numberToString (q h))
                                 (String "-" (numberToString (r h))));
                  coords := h;
                  terrain := Some TerrainType.NORMAL;
                  overlay := None; occupant := None;
                  items := None; tokens := None |}]> map)
        ∅
        (seqZ lo (hi - lo + 1) ≫= fun hq =>
           (fun hr => {| q := hq; r := hr |}) <$> seqZ lo (hi - lo + 1)).

(** [map.get(hexToKey(h))!.terrain = t]. *)
Definition setTerrain (h : Hex) (t : TerrainType.t)
    (map : gmap string GameHex) : gmap string GameHex :=
  alter (with_terrain t) (hexToKey h) map.

Definition walkOptions (maxRange : Z) : MovementOptions :=
  {| range := maxRange; canFly := false; canJump := false;
     ignoreDifficultTerrain := false; ignoreObstacles := false;
     ignoreFigures := false |}.

(* ===================================================================== *)
(** * Properties *)
(* ===================================================================== *)

Ltac zdiv_lia := Z.div_mod_to_equations; lia.

(** The sum of the three absolute differences is even, so the division by
    two in [hexDistance] is exact and the result is an integer. *)
Lemma hexDistance_exact (a b : Hex) :
  2 * hexDistance a b
  = Z.abs (q a - q b) + Z.abs (q a + r a - q b - r b) + Z.abs (r a - r b).
Proof. unfold hexDistance. zdiv_lia. Qed.

Lemma hexDistance_le (a b : Hex) (n : Z) :
  hexDistance a b <= n
  <-> Z.abs (q b - q a) <= n /\ Z.abs (r b - r a) <= n
      /\ Z.abs ((q b - q a) + (r b - r a)) <= n.
Proof. unfold hexDistance. zdiv_lia. Qed.

Lemma hexDistance_nonneg (a b : Hex) : 0 <= hexDistance a b.
Proof. unfold hexDistance. zdiv_lia. Qed.

(* --------------------------------------------------------------------- *)
(** *** The expectations of [types.test.ts] on the basic operations *)

Example hexDistance_values :
  hexDistance (mkHex 0 0) (mkHex 0 0) = 0
  /\ hexDistance (mkHex 0 0) (mkHex 1 0) = 1
  /\ hexDistance (mkHex 0 0) (mkHex 2 (-1)) = 2
  /\ hexDistance (mkHex 1 0) (mkHex 0 1) = 1.
Proof. by vm_compute. Qed.

Example hexToKey_value :
  hexToKey (mkHex (-2) 5) = "-2,5"%string
  /\ keyToHex "-2,5" = Some (mkHex (-2) 5).
Proof. by vm_compute. Qed.

Example getNeighbor_directions :
  map (getNeighbor (mkHex 0 0)) (seq 0 6) = getNeighbors (mkHex 0 0)
  /\ getNeighbors (mkHex 0 0)
     = [mkHex 1 0; mkHex 1 (-1); mkHex 0 (-1);
        mkHex (-1) 0; mkHex (-1) 1; mkHex 0 1].
Proof. by vm_compute. Qed.

(** The suite checks the rings by their lengths only. *)
Example getHexRing_lengths :
  getHexRing (mkHex 0 0) 0 = [mkHex 0 0]
  /\ length (getHexRing (mkHex 0 0) 1) = 6%nat
  /\ length (getHexRing (mkHex 0 0) 2) = 12%nat.
Proof. by vm_compute. Qed.

(* --------------------------------------------------------------------- *)
(** *** [getHexesInRange] *)

Section HexesInRange.
Variables (center : Hex) (range : Z).

(** The column of offsets pushed by the inner loop for the outer index [dq]. *)
Let column (dq : Z) : list Hex :=
  (fun dr => {| q := q center + dq; r := r center + dr |})
    <$> seqZ (Z.max (- range) (- dq - range))
             (Z.min range (- dq + range) - Z.max (- range) (- dq - range) + 1).

Lemma elem_of_column (dq : Z) (h : Hex) :
  h ∈ column dq
  <-> q h = q center + dq
      /\ Z.max (- range) (- dq - range) <= r h - r center
          <= Z.min range (- dq + range).
Proof.
  unfold column. rewrite list_elem_of_fmap. split.
  - intros (dr & -> & Hdr%elem_of_seqZ). simpl. lia.
  - intros [Hq Hr]. exists (r h - r center). split.
    + destruct h as [hq hr]. simpl in *. f_equal; lia.
    + apply elem_of_seqZ. lia.
Qed.

Lemma elem_of_getHexesInRange (h : Hex) :
  h ∈ getHexesInRange center range <-> hexDistance center h <= range.
Proof.
  unfold getHexesInRange. rewrite list_elem_of_bind, hexDistance_le.
  split.
  - intros (dq & Hh & Hdq%elem_of_seqZ).
    apply elem_of_column in Hh. lia.
  - intros H. exists (q h - q center). split.
    + apply elem_of_column. lia.
    + apply elem_of_seqZ. lia.
Qed.

Lemma NoDup_getHexesInRange : NoDup (getHexesInRange center range).
Proof.
  unfold getHexesInRange. apply NoDup_bind.
  - intros d1 d2 h _ _ H1 H2.
    apply elem_of_column in H1, H2. lia.
  - intros dq _. apply NoDup_fmap_2, NoDup_seqZ.
    intros x y [=]. lia.
  - apply NoDup_seqZ.
Qed.

Lemma length_column (dq : Z) :
  - range <= dq <= range ->
  Z.of_nat (length (column dq)) = 2 * range + 1 - Z.abs dq.
Proof.
  intros H. unfold column. rewrite length_fmap, length_seqZ. lia.
Qed.
End HexesInRange.

(** Twice the number of elements pushed by a nested loop whose inner loop
    pushes [a + b * k] elements at outer index [k]. *)
Lemma length_bind_linear {A} (f : Z -> list A) (a b : Z) (m : nat) :
  forall lo : Z,
    (forall k, lo <= k < lo + Z.of_nat m ->
               Z.of_nat (length (f k)) = a + b * k) ->
    2 * Z.of_nat (length (seqZ lo (Z.of_nat m) ≫= f))
    = Z.of_nat m * (2 * a + b * (2 * lo + Z.of_nat m - 1)).
Proof.
  induction m as [|m IH]; intros lo Hf.
  - simpl. lia.
  - rewrite seqZ_cons by lia. rewrite bind_cons, length_app.
    replace (Z.pred (Z.of_nat (S m))) with (Z.of_nat m) by lia.
    rewrite Nat2Z.inj_add, Z.mul_add_distr_l, IH by (intros; apply Hf; lia).
    rewrite Hf by lia. nia.
Qed.

Lemma length_getHexesInRange (center : Hex) (n : Z) :
  0 <= n ->
  Z.of_nat (length (getHexesInRange center n)) = 3 * n * n + 3 * n + 1.
Proof.
  intros Hn. unfold getHexesInRange.
  replace (n - - n + 1) with (Z.of_nat (Z.to_nat (n + 1)) + Z.of_nat (Z.to_nat n))
    by lia.
  rewrite seqZ_app, bind_app, length_app, Nat2Z.inj_add by lia.
  pose proof (length_bind_linear
    (fun dq => (fun dr => {| q := q center + dq; r := r center + dr |})
       <$> seqZ (Z.max (- n) (- dq - n))
                (Z.min n (- dq + n) - Z.max (- n) (- dq - n) + 1))
    (2 * n + 1) 1 (Z.to_nat (n + 1)) (- n)) as H1.
  pose proof (length_bind_linear
    (fun dq => (fun dr => {| q := q center + dq; r := r center + dr |})
       <$> seqZ (Z.max (- n) (- dq - n))
                (Z.min n (- dq + n) - Z.max (- n) (- dq - n) + 1))
    (2 * n + 1) (-1) (Z.to_nat n) (- n + Z.of_nat (Z.to_nat (n + 1)))) as H2.
  cbv zeta.
  cut (2 * (Z.of_nat (length (seqZ (- n) (Z.of_nat (Z.to_nat (n + 1))) ≫=
         (fun dq => (fun dr => {| q := q center + dq; r := r center + dr |})
            <$> seqZ (Z.max (- n) (- dq - n))
                     (Z.min n (- dq + n) - Z.max (- n) (- dq - n) + 1))))
       + Z.of_nat (length (seqZ (- n + Z.of_nat (Z.to_nat (n + 1)))
                                 (Z.of_nat (Z.to_nat n)) ≫=
         (fun dq => (fun dr => {| q := q center + dq; r := r center + dr |})
            <$> seqZ (Z.max (- n) (- dq - n))
                     (Z.min n (- dq + n) - Z.max (- n) (- dq - n) + 1)))))
       = 2 * (3 * n * n + 3 * n + 1)); [lia|].
  rewrite Z.mul_add_distr_l, H1, H2.
  - rewrite !Z2Nat.id by lia. nia.
  - intros k Hk. rewrite (length_column center n k) by lia. lia.
  - intros k Hk. rewrite (length_column center n k) by lia. lia.
Qed.

(** C7. For every center and every [n >= 0], [getHexesInRange center n]
    holds exactly the hexes at distance at most [n] from the center, each of
    them once, and it has [3n^2 + 3n + 1] elements. *)
Theorem getHexesInRange_spec (center : Hex) (n : Z) :
  0 <= n ->
  (forall h, h ∈ getHexesInRange center n <-> hexDistance center h <= n)
  /\ NoDup (getHexesInRange center n)
  /\ Z.of_nat (length (getHexesInRange center n)) = 3 * n * n + 3 * n + 1.
Proof.
  intros Hn. split; [|split].
  - intros h. apply elem_of_getHexesInRange.
  - apply NoDup_getHexesInRange.
  - by apply length_getHexesInRange.
Qed.

Lemma getHexesInRange_spec_witness :
  0 <= 2
  /\ ((forall h, h ∈ getHexesInRange (mkHex 0 0) 2
                 <-> hexDistance (mkHex 0 0) h <= 2)
      /\ NoDup (getHexesInRange (mkHex 0 0) 2)
      /\ Z.of_nat (length (getHexesInRange (mkHex 0 0) 2)) = 3 * 2 * 2 + 3 * 2 + 1).
Proof. split; [lia | apply (getHexesInRange_spec (mkHex 0 0) 2); lia]. Defined.

(* --------------------------------------------------------------------- *)
(** *** String keys *)

Lemma splitOn_no_separator (sep : ascii) (s : string) :
  occursIn sep s = false -> splitOn sep s = [s].
Proof.
  induction s as [|c s IH]; simpl; [done|].
  intros [Hc Hs]%orb_false_iff. by rewrite Hc, IH.
Qed.

Lemma splitOn_append (sep : ascii) (s1 s2 : string) :
  occursIn sep s1 = false ->
  splitOn sep (String.append s1 (String sep s2)) = s1 :: splitOn sep s2.
Proof.
  induction s1 as [|c s1 IH]; simpl.
  - intros _. by rewrite Ascii.eqb_refl.
  - intros [Hc Hs]%orb_false_iff. by rewrite Hc, IH.
Qed.

Lemma occursIn_digits (d : Decimal.uint) :
  occursIn "," (NilEmpty.string_of_uint d) = false.
Proof. induction d; simpl; auto. Qed.

Lemma occursIn_numberToString (n : Z) :
  occursIn "," (numberToString n) = false.
Proof.
  unfold numberToString.
  destruct (Z.to_int n) as [d|d]; simpl; destruct d; simpl;
    auto using occursIn_digits.
Qed.

Lemma to_int_not_nil (n : Z) :
  Z.to_int n <> Decimal.Pos Decimal.Nil /\ Z.to_int n <> Decimal.Neg Decimal.Nil.
Proof.
  destruct n as [|p|p]; simpl; split; try discriminate;
    intros [= H]; by apply (DecimalPos.Unsigned.to_uint_nonnil p).
Qed.

Lemma parseNumber_numberToString (n : Z) :
  parseNumber (numberToString n) = Some n.
Proof.
  unfold numberToString, parseNumber.
  destruct (to_int_not_nil n) as [Hp Hn].
  pose proof (NilZero.isi (Z.to_int n) Hp Hn) as Hisi.
  destruct (NilZero.string_of_int (Z.to_int n)) as [|c s]; [discriminate|].
  rewrite Hisi. simpl. by rewrite DecimalZ.of_to.
Qed.

Lemma splitOn_hexToKey (h : Hex) :
  splitOn "," (hexToKey h) = [numberToString (q h); numberToString (r h)].
Proof.
  unfold hexToKey.
  rewrite splitOn_append by apply occursIn_numberToString.
  by rewrite splitOn_no_separator by apply occursIn_numberToString.
Qed.

Lemma numberToString_inj (m n : Z) :
  numberToString m = numberToString n -> m = n.
Proof.
  intros H. apply (f_equal parseNumber) in H.
  rewrite !parseNumber_numberToString in H. congruence.
Qed.

Lemma hexToKey_inj (a b : Hex) : hexToKey a = hexToKey b -> a = b.
Proof.
  intros H. apply (f_equal (splitOn ",")) in H.
  rewrite !splitOn_hexToKey in H. injection H as Hq Hr.
  apply numberToString_inj in Hq, Hr. destruct a, b. simpl in *. congruence.
Qed.

(** C10. The string key of a hex with integer coordinates decodes to the
    same hex. *)
Theorem keyToHex_hexToKey (h : Hex) : keyToHex (hexToKey h) = Some h.
Proof.
  unfold keyToHex. rewrite splitOn_hexToKey. cbn [fmap list_fmap].
  rewrite !parseNumber_numberToString. by destruct h.
Qed.

(* --------------------------------------------------------------------- *)
(** *** [getHexRing] *)

Lemma getHexRing_zero (center : Hex) : getHexRing center 0 = [center].
Proof. reflexivity. Qed.

Lemma ringSide_cons (i n : nat) (h : Hex) :
  (ringSide i (S n) h).1 = h :: (ringSide i n (getNeighbor h i)).1.
Proof. simpl. by destruct (ringSide i n (getNeighbor h i)). Qed.

Lemma ringSide_east (n : nat) (h : Hex) :
  (ringSide 0 n h).2 = {| q := q h + Z.of_nat n; r := r h |}.
Proof.
  revert h. induction n as [|n IH]; intros [hq hr].
  - simpl. f_equal; lia.
  - simpl. specialize (IH (getNeighbor (mkHex hq hr) 0)).
    destruct (ringSide 0 n _) as [side last]. simpl in *. subst last.
    f_equal; lia.
Qed.

Lemma ringSide_northeast (n : nat) (h : Hex) :
  (ringSide 1 n h).2 = {| q := q h + Z.of_nat n; r := r h - Z.of_nat n |}.
Proof.
  revert h. induction n as [|n IH]; intros [hq hr].
  - simpl. f_equal; lia.
  - simpl. specialize (IH (getNeighbor (mkHex hq hr) 1)).
    destruct (ringSide 1 n _) as [side last]. simpl in *. subst last.
    f_equal; lia.
Qed.

(** For every radius of at least 1 the third side of the walk starts at
    [center + (2 radius, - 2 radius)], a hex at distance [2 radius]. *)
Lemma getHexRing_far_corner (center : Hex) (radius : Z) :
  1 <= radius ->
  {| q := q center + 2 * radius; r := r center - 2 * radius |}
    ∈ getHexRing center radius
  /\ hexDistance center
       {| q := q center + 2 * radius; r := r center - 2 * radius |}
     = 2 * radius.
Proof.
  intros Hr. split.
  - unfold getHexRing. destruct (Z.eqb_spec radius 0) as [|_]; [lia|].
    destruct (Z.to_nat radius) as [|n] eqn:Hn; [lia|].
    cbn [seq ringSides].
    pose proof (ringSide_east (S n) (hexAdd center (mkHex 0 (- radius)))) as H0.
    destruct (ringSide 0 (S n) _) as [side0 last0]. simpl in H0.
    pose proof (ringSide_northeast (S n) last0) as H1.
    destruct (ringSide 1 (S n) last0) as [side1 last1]. simpl in H1.
    pose proof (ringSide_cons 2 n last1) as H2.
    destruct (ringSide 2 (S n) last1) as [side2 last2]. simpl in H2.
    rewrite !elem_of_app. right. right. left.
    rewrite H2. subst last1 last0. simpl.
    replace (mkHex _ _) with
      (mkHex (q center + 0 + Z.of_nat (S n) + Z.of_nat (S n))
             (r center + - radius - Z.of_nat (S n))); [apply list_elem_of_here|].
    f_equal; lia.
  - unfold hexDistance. simpl. zdiv_lia.
Qed.

(** C2 (defect). At radius 1 around the origin the walk of [getHexRing]
    returns the six neighbors of [(1, -2)], not those of the origin: it
    holds [(2, -2)], at distance 2, and misses [(1, 0)], at distance 1. *)
Theorem getHexRing_radius_1_off_center :
  getHexRing (mkHex 0 0) 1
  = [mkHex 0 (-1); mkHex 1 (-1); mkHex 2 (-2);
     mkHex 2 (-3); mkHex 1 (-3); mkHex 0 (-2)]
  /\ ((mkHex 2 (-2) ∈ getHexRing (mkHex 0 0) 1)
      /\ hexDistance (mkHex 0 0) (mkHex 2 (-2)) = 2)
  /\ ((mkHex 1 0 ∉ getHexRing (mkHex 0 0) 1)
      /\ hexDistance (mkHex 0 0) (mkHex 1 0) = 1).
Proof.
  split; [reflexivity|]. split; split; try reflexivity.
  - apply (bool_decide_unpack _). by vm_compute.
  - apply (bool_decide_unpack _). by vm_compute.
Qed.

(* --------------------------------------------------------------------- *)
(** *** [findPath] *)

(** The only use of [options.range]: a result with [isValid = true] has its
    goal within hex distance [range] of the start. *)
Lemma findPath_valid_distance (fuel : nat) (start goal : Hex)
    (gameMap : gmap string GameHex) (options : MovementOptions)
    (res : PathResult) :
  findPath fuel start goal gameMap options = Some res ->
  isValid res = true ->
  hexDistance start goal <= range options.
Proof.
  unfold findPath.
  destruct (Z.ltb_spec (range options) (hexDistance start goal)) as [Hlt|Hle].
  - intros [= <-]. discriminate.
  - auto.
Qed.

(** More fuel does not change a result of the search. *)
Lemma searchLoop_fuel_mono (goal : Hex) (gameMap : gmap string GameHex)
    (options : MovementOptions) (fuel : nat) :
  forall (s : Search) (res : PathResult) (fuel' : nat),
    searchLoop fuel goal gameMap options s = Some res ->
    (fuel <= fuel')%nat ->
    searchLoop fuel' goal gameMap options s = Some res.
Proof.
  induction fuel as [|fuel IH]; intros s res fuel' Hres Hle; [done|].
  destruct fuel' as [|fuel']; [lia|]. simpl in *.
  destruct (openSet s); [done|].
  destruct (keyToHex _); [|done].
  destruct (hexEquals _ goal); [done|].
  apply IH; [done | lia].
Qed.

Lemma findPath_fuel_mono (fuel fuel' : nat) (start goal : Hex)
    (gameMap : gmap string GameHex) (options : MovementOptions)
    (res : PathResult) :
  findPath fuel start goal gameMap options = Some res ->
  (fuel <= fuel')%nat ->
  findPath fuel' start goal gameMap options = Some res.
Proof.
  unfold findPath. destruct (range options <? hexDistance start goal); [done|].
  apply searchLoop_fuel_mono.
Qed.

Example findPath_open_board :
  findPath 100 (mkHex 0 0) (mkHex 2 0) (createTestMap 0 4) (walkOptions 2)
  = Some {| path := [mkHex 0 0; mkHex 1 0; mkHex 2 0];
            cost := Finite 2; isValid := true |}.
Proof. by vm_compute. Qed.

Example findPath_difficult_hex :
  findPath 100 (mkHex 0 0) (mkHex 2 0)
           (setTerrain (mkHex 1 0) TerrainType.DIFFICULT (createTestMap 0 4))
           (walkOptions 5)
  = Some {| path := [mkHex 0 0; mkHex 1 0; mkHex 2 0];
            cost := Finite 3; isValid := true |}.
Proof. by vm_compute. Qed.

(** C1 (defect). On the open 5x5 board with a Wall on [(1, 0)], the search
    from [(0, 0)] to [(2, 0)] at range 2 goes around the wall and returns a
    valid path of cost 3: the range is not enforced on the cost. *)
Theorem findPath_wall_detour_over_range :
  findPath 100 (mkHex 0 0) (mkHex 2 0)
           (setTerrain (mkHex 1 0) TerrainType.WALL (createTestMap 0 4))
           (walkOptions 2)
  = Some {| path := [mkHex 0 0; mkHex 0 1; mkHex 1 1; mkHex 2 0];
            cost := Finite 3; isValid := true |}
  /\ cost_ltb (Finite (range (walkOptions 2))) (Finite 3) = true.
Proof. split; by vm_compute. Qed.

(* --------------------------------------------------------------------- *)
(** *** [hasLineOfSight] *)

Lemma hexEquals_eq (a b : Hex) : hexEquals a b = true <-> a = b.
Proof.
  unfold hexEquals. rewrite andb_true_iff, !Z.eqb_eq.
  destruct a, b; simpl. split; [intros [-> ->]; done | intros [= -> ->]; done].
Qed.

Lemma length_getHexLine (a b : Hex) :
  length (getHexLine a b) = Z.to_nat (hexDistance a b + 1).
Proof.
  unfold getHexLine. rewrite length_fmap, length_seqZ. f_equal. lia.
Qed.

Lemma Math_round_integer (x : Q) (a : Z) : (x == inject_Z a)%Q -> Math_round x = a.
Proof.
  intros H. unfold Math_round. rewrite H.
  unfold Qfloor, Qplus, inject_Z. simpl. Z.div_mod_to_equations. lia.
Qed.

Lemma Qgtb_zero (x y : Q) : (x == 0)%Q -> (y == 0)%Q -> Qgtb x y = false.
Proof.
  intros Hx Hy. unfold Qgtb. apply negb_false_iff, Qle_bool_iff.
  rewrite Hx, Hy. apply Qle_refl.
Qed.

(** Rounding a hex whose coordinates are integers returns that hex. *)
Lemma hexRound_integer (x y : Q) (a b : Z) :
  (x == inject_Z a)%Q -> (y == inject_Z b)%Q ->
  hexRound {| fq := x; fr := y |} = mkHex a b.
Proof.
  intros Hx Hy. unfold hexRound. cbn [fq fr].
  rewrite (Math_round_integer x a Hx), (Math_round_integer y b Hy).
  assert (Hq : (Qabs (inject_Z a - x) == 0)%Q).
  { rewrite Hx.
    setoid_replace (inject_Z a - inject_Z a)%Q with 0%Q using relation Qeq
      by ring.
    reflexivity. }
  assert (Hr : (Qabs (inject_Z b - y) == 0)%Q).
  { rewrite Hy.
    setoid_replace (inject_Z b - inject_Z b)%Q with 0%Q using relation Qeq
      by ring.
    reflexivity. }
  rewrite (Qgtb_zero _ _ Hq Hr). cbn [andb].
  assert (Hs : (- x - y == inject_Z (- a - b))%Q).
  { rewrite Hx, Hy. unfold Z.sub. rewrite inject_Z_plus, !inject_Z_opp. ring. }
  rewrite (Math_round_integer _ _ Hs).
  assert (Hsd : (Qabs (inject_Z (- a - b) - (- x - y)) == 0)%Q).
  { rewrite Hs.
    setoid_replace (inject_Z (- a - b) - inject_Z (- a - b))%Q with 0%Q
      using relation Qeq by ring.
    reflexivity. }
  by rewrite (Qgtb_zero _ _ Hr Hsd).
Qed.

(** The first sample of the line is the start and the last one, at index
    [distance], is the target: the loop of [hasLineOfSight] skips exactly
    the two end points. *)
Lemma getHexLine_first (a b : Hex) : getHexLine a b !! 0%nat = Some a.
Proof.
  unfold getHexLine. pose proof (hexDistance_nonneg a b) as Hd.
  rewrite seqZ_cons by lia. cbn [fmap list_fmap lookup list_lookup].
  f_equal. destruct a as [aq ar].
  apply hexRound_integer; cbn [q r];
    destruct (hexDistance _ b =? 0); unfold Qdiv; ring.
Qed.

Lemma getHexLine_last (a b : Hex) :
  getHexLine a b !! Z.to_nat (hexDistance a b) = Some b.
Proof.
  unfold getHexLine. pose proof (hexDistance_nonneg a b) as Hd.
  rewrite list_lookup_fmap, lookup_seqZ_lt by lia. cbn [fmap option_fmap option_map].
  f_equal. rewrite Z2Nat.id, Z.add_0_l by lia.
  destruct (Z.eqb_spec (hexDistance a b) 0) as [H0|Hne].
  - assert (a = b) as ->.
    { destruct a, b. unfold hexDistance in H0. simpl in H0.
      f_equal; Z.div_mod_to_equations; lia. }
    destruct b. apply hexRound_integer; cbn [q r]; ring.
  - destruct b as [bq br]. apply hexRound_integer; cbn [q r].
    + unfold Z.sub. rewrite inject_Z_plus, inject_Z_opp. field.
      intros H. apply Hne. change 0%Q with (inject_Z 0) in H.
      exact (proj1 (inject_Z_injective _ _) H).
    + unfold Z.sub. rewrite inject_Z_plus, inject_Z_opp. field.
      intros H. apply Hne. change 0%Q with (inject_Z 0) in H.
      exact (proj1 (inject_Z_injective _ _) H).
Qed.


Lemma sightLoop_false (line : list Hex) (gameMap : gmap string GameHex)
    (indices : list nat) :
  Forall (fun i => i < length line)%nat indices ->
  sightLoop line gameMap indices = false
  <-> exists i h hex,
        i ∈ indices /\ line !! i = Some h
        /\ gameMap !! hexToKey h = Some hex /\ blocksSight hex = true.
Proof.
  induction 1 as [|i rest Hi _ IH]; simpl.
  - split; [done|]. intros (i & _ & _ & []%elem_of_nil & _).
  - destruct (lookup_lt_is_Some_2 line i Hi) as [h Hh]. rewrite Hh.
    destruct (gameMap !! hexToKey h) as [hex|] eqn:Hhex.
    + destruct (blocksSight hex) eqn:Hb.
      * split; [intros _|done]. exists i, h, hex. by rewrite elem_of_cons; auto.
      * rewrite IH. split.
        -- intros (j & h' & hex' & Hj & ?). exists j, h', hex'.
           rewrite elem_of_cons. auto.
        -- intros (j & h' & hex' & [->|Hj]%elem_of_cons & Hl & Hm & Hb').
           ++ congruence.
           ++ by exists j, h', hex'.
    + rewrite IH. split.
      * intros (j & h' & hex' & Hj & ?). exists j, h', hex'.
        rewrite elem_of_cons. auto.
      * intros (j & h' & hex' & [->|Hj]%elem_of_cons & Hl & Hm & Hb').
        -- congruence.
        -- by exists j, h', hex'.
Qed.



Example hasLineOfSight_wall_between :
  hasLineOfSight (mkHex 0 0) (mkHex 2 0)
    (setTerrain (mkHex 1 0) TerrainType.WALL (createTestMap (-3) 3)) = false.
Proof. by vm_compute. Qed.

Example getHexLine_straight :
  getHexLine (mkHex 0 0) (mkHex 2 0) = [mkHex 0 0; mkHex 1 0; mkHex 2 0].
Proof. by vm_compute. Qed.

(* --------------------------------------------------------------------- *)
(** *** Reputation *)

Lemma reputationsInRange_initial : reputationsInRange createInitialGameState.
Proof. unfold reputationsInRange. simpl. lia. Qed.

Lemma reputationsInRange_step (st : GloomhavenGameState) (c : ReputationCall) :
  reputationsInRange st -> reputationsInRange (runReputationCall st c).
Proof.
  unfold reputationsInRange. intros [Hc Hp].
  destruct c as [change|change]; simpl; lia.
Qed.

Lemma reputationsInRange_run (calls : list ReputationCall) :
  forall st, reputationsInRange st ->
             reputationsInRange (foldl runReputationCall st calls).
Proof.
  induction calls as [|c calls IH]; intros st Hst; simpl; [done|].
  by apply IH, reputationsInRange_step.
Qed.

(** C8. From the initial state, after any finite sequence of
    [updateReputation] and [updatePartyReputation] calls with integer
    changes, both reputations are between -20 and 20. *)
Theorem reputation_bounds (calls : list ReputationCall) :
  let st := foldl runReputationCall createInitialGameState calls in
  -20 <= reputation (campaign st) <= 20
  /\ -20 <= party_reputation (party st) <= 20.
Proof. apply reputationsInRange_run, reputationsInRange_initial. Qed.

(* --------------------------------------------------------------------- *)
(** *** Elements *)

Lemma getElement_setElement (e e' : Element.t) (s : ElementState.t)
    (tracker : ElementTracker) :
  getElement (setElement e s tracker) e'
  = if decide (e = e') then s else getElement tracker e'.
Proof. by destruct e, e'. Qed.

Lemma getElement_waneOne (e e' : Element.t) (tracker : ElementTracker) :
  getElement (waneOne tracker e) e'
  = if decide (e = e') then waneStep (getElement tracker e)
    else getElement tracker e'.
Proof.
  unfold waneOne.
  destruct (getElement tracker e) eqn:He; simpl;
    rewrite ?getElement_setElement; destruct (decide (e = e')); congruence.
Qed.

Lemma getElement_waneAll (e' : Element.t) (tracker : ElementTracker) :
  getElement (foldl waneOne tracker Element.values) e'
  = waneStep (getElement tracker e').
Proof.
  unfold Element.values. cbn [foldl].
  rewrite !getElement_waneOne.
  destruct e'; simpl; rewrite ?getElement_waneOne; reflexivity.
Qed.

(** C5. With a scenario in play, consuming an element whose cell is Strong
    or Waning returns [true] and leaves that cell Inert, every other cell
    and the rest of the state as they were; consuming an Inert element
    returns [false] and the state is the one before the call. *)
Theorem consumeElement_spec (e : Element.t) (st : GloomhavenGameState)
    (sc : ScenarioState) :
  scenario st = Some sc ->
  (getElement (scenario_elements sc) e = ElementState.STRONG
   \/ getElement (scenario_elements sc) e = ElementState.WANING ->
   exists tracker',
     consumeElement e st
     = (true, with_scenario (Some (with_elements tracker' sc)) st)
     /\ getElement tracker' e = ElementState.INERT
     /\ forall e', e' <> e ->
                   getElement tracker' e' = getElement (scenario_elements sc) e')
  /\ (getElement (scenario_elements sc) e = ElementState.INERT ->
      consumeElement e st = (false, st)).
Proof.
  intros Hsc. unfold consumeElement. rewrite Hsc. simpl. split.
  - intros Hs.
    exists (setElement e ElementState.INERT (scenario_elements sc)).
    split; [|split].
    + destruct Hs as [-> | ->]; reflexivity.
    + rewrite getElement_setElement. by destruct (decide (e = e)).
    + intros e' Hne. rewrite getElement_setElement.
      by destruct (decide (e = e')).
  - intros ->. reflexivity.
Qed.

Lemma consumeElement_spec_witness :
  fst (consumeElement Element.FIRE sampleInfused) = true
  /\ elementState Element.FIRE (snd (consumeElement Element.FIRE sampleInfused))
     = Some ElementState.INERT
  /\ consumeElement Element.ICE sampleInfused = (false, sampleInfused).
Proof.
  pose proof (consumeElement_spec Element.FIRE sampleInfused _ eq_refl)
    as [Hok _].
  pose proof (consumeElement_spec Element.ICE sampleInfused _ eq_refl)
    as [_ Hfail].
  destruct (Hok (or_introl eq_refl)) as (tracker' & Heq & Hcell & _).
  rewrite Heq. split; [reflexivity|]. split.
  - exact (f_equal Some Hcell).
  - apply Hfail. reflexivity.
Defined.

(** C6. With a scenario in play, infusing an element leaves its cell
    Strong whatever it was; [waneElements] moves each of the six cells by
    one transition of the automaton (Strong to Waning, Waning to Inert,
    Inert stays); so a cell is Strong after the infusion, Waning after one
    wane and Inert after two. *)
Theorem element_automaton (e : Element.t) (st : GloomhavenGameState)
    (sc : ScenarioState) :
  scenario st = Some sc ->
  elementState e (infuseElement e st) = Some ElementState.STRONG
  /\ (forall e', e' <> e ->
                 elementState e' (infuseElement e st) = elementState e' st)
  /\ (forall e', elementState e' (waneElements st)
                 = Some (waneStep (getElement (scenario_elements sc) e')))
  /\ elementState e (waneElements (infuseElement e st))
     = Some ElementState.WANING
  /\ elementState e (waneElements (waneElements (infuseElement e st)))
     = Some ElementState.INERT.
Proof.
  intros Hsc.
  assert (Hinf : elementState e (infuseElement e st) = Some ElementState.STRONG).
  { unfold elementState, infuseElement. rewrite Hsc. simpl.
    rewrite getElement_setElement. by destruct (decide (e = e)). }
  assert (Hwane : forall st' e',
             elementState e' (waneElements st') = waneStep <$> elementState e' st').
  { intros st' e'. unfold elementState, waneElements.
    destruct (scenario st') as [sc'|] eqn:Hsc'.
    - exact (f_equal Some (getElement_waneAll e' (scenario_elements sc'))).
    - by rewrite Hsc'. }
  split_and!.
  - done.
  - intros e' Hne. unfold elementState, infuseElement. rewrite Hsc. simpl.
    rewrite getElement_setElement. by destruct (decide (e = e')).
  - intros e'. rewrite Hwane. unfold elementState. by rewrite Hsc.
  - by rewrite Hwane, Hinf.
  - by rewrite !Hwane, Hinf.
Qed.

Lemma element_automaton_witness :
  let st := startScenario 1 ["a"] sampleStore in
  elementState Element.FIRE (infuseElement Element.FIRE st)
  = Some ElementState.STRONG
  /\ elementState Element.FIRE (waneElements (infuseElement Element.FIRE st))
     = Some ElementState.WANING
  /\ elementState Element.FIRE
       (waneElements (waneElements (infuseElement Element.FIRE st)))
     = Some ElementState.INERT.
Proof.
  intros st.
  destruct (element_automaton Element.FIRE st _ eq_refl)
    as (H1 & _ & _ & H2 & H3).
  by split_and!.
Defined.

(* --------------------------------------------------------------------- *)
(** *** Scenario level *)

Lemma foldl_level_sum (chars : list Character) (acc : Z) :
  foldl (fun sum char => sum + level char) acc chars
  = acc + foldr Z.add 0 (level <$> chars).
Proof.
  revert acc. induction chars as [|c chars IH]; intros acc; csimpl; [lia|].
  rewrite IH. lia.
Qed.

Lemma averageLevelOf_levels (chars : list Character) :
  averageLevelOf chars = averageOfLevels (level <$> chars).
Proof.
  unfold averageLevelOf, averageOfLevels.
  destruct chars as [|c chars]; [done|].
  rewrite bool_decide_eq_false_2 by done.
  cbv zeta. by rewrite foldl_level_sum, length_fmap, Z.add_0_l.
Qed.

Lemma omap_lookup_levels (cs : gmap string Character)
    (partyMembers : list string) (levels : list Z) :
  (fun id => level <$> (cs !! id)) <$> partyMembers = Some <$> levels ->
  level <$> omap (fun id => cs !! id) partyMembers = levels.
Proof.
  revert levels. induction partyMembers as [|id ids IH]; intros [|lv levels];
    csimpl; try done.
  intros [= Hid Hids]. destruct (cs !! id) as [c|]; [|done].
  csimpl in *. injection Hid as ->. by rewrite (IH levels).
Qed.

Lemma foldr_add_nonneg (levels : list Z) :
  Forall (fun lv => 0 <= lv) levels -> 0 <= foldr Z.add 0 levels.
Proof. induction 1; simpl; lia. Qed.

Lemma floorHalf_nonneg (levels : list Z) (a : Q) :
  Forall (fun lv => 0 <= lv) levels ->
  averageOfLevels levels = Some a ->
  0 <= Qfloor (a / 2).
Proof.
  intros Hpos. unfold averageOfLevels.
  destruct (bool_decide (levels = [])); [done|]. intros [= <-].
  change 0 with (Qfloor 0). apply Qfloor_resp_le.
  unfold Qdiv. repeat apply Qmult_le_0_compat.
  - change 0%Q with (inject_Z 0). rewrite <- Zle_Qle.
    by apply foldr_add_nonneg.
  - apply Qinv_le_0_compat. change 0%Q with (inject_Z 0).
    rewrite <- Zle_Qle. lia.
  - done.
Qed.

(** C3. When every party member is in the character map and the levels
    are not negative, the level of the scenario that [startScenario] creates
    (also recorded as the difficulty of its board) is [floor(L / 2) + 2] for
    a party of five and [floor(L / 2)] for any other size, [L] being the
    average of the members' levels (not a number for an empty party, and
    then so is the level). *)
Theorem startScenario_level (scenarioId : Z) (partyMembers : list string)
    (st : GloomhavenGameState) (levels : list Z) :
  (fun id => level <$> (characters st !! id)) <$> partyMembers
  = Some <$> levels ->
  Forall (fun lv => 0 <= lv) levels ->
  exists sc,
    scenario (startScenario scenarioId partyMembers st) = Some sc
    /\ scenario_level sc
       = (if decide (length partyMembers = 5%nat)
          then (fun l => l + 2) <$> floorHalf (averageOfLevels levels)
          else floorHalf (averageOfLevels levels))
    /\ difficulty (metadata (mapState sc)) = scenario_level sc.
Proof.
  intros Hlevels Hpos. unfold startScenario. cbv zeta.
  eexists. split; [reflexivity|].
  cbn [scenario_level mapState metadata difficulty]. split; [|reflexivity].
  rewrite averageLevelOf_levels, (omap_lookup_levels _ _ levels Hlevels).
  assert (Hmax : (fun a : Q => Z.max 0 (Qfloor (a / 2)))
                   <$> averageOfLevels levels
                 = floorHalf (averageOfLevels levels)).
  { unfold floorHalf.
    destruct (averageOfLevels levels) as [a|] eqn:Ha; [|done].
    change (Some (Z.max 0 (Qfloor (a / 2))) = Some (Qfloor (a / 2))).
    f_equal. pose proof (floorHalf_nonneg levels a Hpos Ha). lia. }
  rewrite Hmax.
  destruct (decide (length partyMembers = 5%nat)) as [->|Hne].
  - reflexivity.
  - by rewrite (proj2 (Nat.eqb_neq _ _) Hne).
Qed.

Lemma startScenario_level_witness :
  scenario_level
    <$> scenario (startScenario 1 ["a"; "b"; "c"; "d"; "e"] sampleStore)
  = Some (Some 3).
Proof.
  destruct (startScenario_level 1 ["a"; "b"; "c"; "d"; "e"] sampleStore
              [3; 4; 9; 1; 2]) as (sc & Hsc & Hlevel & _).
  - reflexivity.
  - repeat constructor; lia.
  - rewrite Hsc. cbn [fmap option_fmap option_map]. rewrite Hlevel.
    reflexivity.
Defined.

Example startScenario_level_three :
  scenario_level <$> scenario (startScenario 1 ["a"; "b"; "c"] sampleStore)
  = Some (Some 2).
Proof. by vm_compute. Qed.

(* --------------------------------------------------------------------- *)
(** *** [moveCharacter] *)




Example moveCharacter_other_occupant_kept :
  let st := with_characters
              (<["d" := with_position (Some (mkHex 0 0)) (sampleCharacter "d" 1)]>
                 (characters sampleScenario)) sampleScenario in
  occupant
    <$> (scenario (moveCharacter "d" (mkHex 2 1) st)
           ≫= fun sc => hexes (mapState sc) !! hexToKey (mkHex 0 0))
  = Some (Some "b").
Proof. by vm_compute. Qed.


(* ===================================================================== *)
(** * Further properties of the hex geometry *)
(* ===================================================================== *)

(** X1. [hexDistance] is a metric on hexes: it is never negative, it is
    symmetric, it is zero exactly between a hex and itself, and it obeys the
    triangle inequality. *)
Theorem hexDistance_metric (a b c : Hex) :
  0 <= hexDistance a b
  /\ hexDistance a b = hexDistance b a
  /\ (hexDistance a b = 0 <-> a = b)
  /\ hexDistance a c <= hexDistance a b + hexDistance b c.
Proof.
  destruct a as [aq ar], b as [bq br], c as [cq cr].
  unfold hexDistance. cbn [q r]. split_and!.
  - zdiv_lia.
  - zdiv_lia.
  - split.
    + intros H. f_equal; zdiv_lia.
    + intros [= -> ->]. zdiv_lia.
  - zdiv_lia.
Qed.

Lemma hexDistance_triangle (a b c : Hex) :
  hexDistance a c <= hexDistance a b + hexDistance b c.
Proof.
  destruct a as [aq ar], b as [bq br], c as [cq cr].
  unfold hexDistance. cbn [q r]. zdiv_lia.
Qed.

Lemma elem_of_getNeighbors (h n : Hex) :
  n ∈ getNeighbors h <-> hexDistance h n = 1.
Proof.
  destruct h as [hq hr], n as [nq nr].
  unfold getNeighbors, HEX_DIRECTIONS, hexAdd, hexDistance. cbn [map q r].
  rewrite !elem_of_cons, elem_of_nil. split.
  - intros [H|[H|[H|[H|[H|[H|[]]]]]]]; injection H as -> ->; zdiv_lia.
  - intros H.
    assert (nq = hq + 1 /\ nr = hr + 0 \/ nq = hq + 1 /\ nr = hr + -1
            \/ nq = hq + 0 /\ nr = hr + -1 \/ nq = hq + -1 /\ nr = hr + 0
            \/ nq = hq + -1 /\ nr = hr + 1 \/ nq = hq + 0 /\ nr = hr + 1)
      as Hcases by zdiv_lia.
    destruct Hcases as [[-> ->]|[[-> ->]|[[-> ->]|[[-> ->]|[[-> ->]|[-> ->]]]]]];
      auto 10.
Qed.

(** X2. The neighbors of a hex are exactly the hexes at distance 1 from it:
    six of them, all different; [isAdjacent] holds exactly for them. *)
Theorem getNeighbors_spec (h : Hex) :
  (forall n, n ∈ getNeighbors h <-> hexDistance h n = 1)
  /\ (forall n, isAdjacent h n = true <-> n ∈ getNeighbors h)
  /\ NoDup (getNeighbors h)
  /\ length (getNeighbors h) = 6%nat.
Proof.
  split_and!.
  - intros n. apply elem_of_getNeighbors.
  - intros n. unfold isAdjacent. rewrite Z.eqb_eq.
    symmetry. apply elem_of_getNeighbors.
  - destruct h as [hq hr].
    unfold getNeighbors, HEX_DIRECTIONS, hexAdd. cbn [map q r].
    repeat (apply NoDup_cons_2;
            [rewrite ?not_elem_of_cons; split_and?;
             try apply not_elem_of_nil; intros [=]; lia|]).
    apply NoDup_nil_2.
  - reflexivity.
Qed.

(** X3. [getNeighbor h d] is one of the neighbors of [h], the one at index
    [d mod 6] of [getNeighbors]; the direction counts modulo 6, and the
    direction three steps further leads back. *)
Theorem getNeighbor_spec (h : Hex) (d : nat) :
  getNeighbors h !! (d mod 6)%nat = Some (getNeighbor h d)
  /\ getNeighbor h (d + 6) = getNeighbor h d
  /\ getNeighbor (getNeighbor h d) (d + 3) = h.
Proof.
  unfold getNeighbor.
  replace ((d + 6) mod 6)%nat with (d mod 6)%nat
    by (rewrite <- (Nat.Div0.add_mod_idemp_r d 6 6); simpl; by rewrite Nat.add_0_r).
  rewrite <- (Nat.Div0.add_mod_idemp_l d 3 6).
  pose proof (Nat.mod_upper_bound d 6 ltac:(lia)) as Hlt.
  destruct h as [hq hr]. unfold getNeighbors, hexAdd.
  destruct (d mod 6)%nat as [|[|[|[|[|[|m]]]]]]; [..|lia];
    cbn; split_and!; try reflexivity; f_equal; lia.
Qed.

(** X4. [hexSubtract] undoes [hexAdd] and conversely, and moving two hexes
    by the same offset does not change their distance. *)
Theorem hexAdd_hexSubtract (a b c : Hex) :
  hexSubtract (hexAdd a b) b = a
  /\ hexAdd (hexSubtract a b) b = a
  /\ hexDistance (hexAdd a c) (hexAdd b c) = hexDistance a b
  /\ hexDistance (hexSubtract a b) (mkHex 0 0) = hexDistance a b.
Proof.
  destruct a as [aq ar], b as [bq br], c as [cq cr].
  unfold hexSubtract, hexAdd, hexDistance. cbn [q r]. split_and!.
  - f_equal; lia.
  - f_equal; lia.
  - f_equal. lia.
  - f_equal. lia.
Qed.

(** X5. [getHexesInRange] returns nothing for a negative range and the
    center alone for range 0; a larger range only adds hexes; and range 1
    gives the center and its six neighbors. *)
Theorem getHexesInRange_small_and_monotone (center : Hex) :
  (forall n, n < 0 -> getHexesInRange center n = [])
  /\ getHexesInRange center 0 = [center]
  /\ (forall n m h, n <= m ->
        h ∈ getHexesInRange center n -> h ∈ getHexesInRange center m)
  /\ (forall h, h ∈ getHexesInRange center 1
                <-> h = center \/ h ∈ getNeighbors center).
Proof.
  split_and!.
  - intros n Hn. apply elem_of_nil_inv. intros h Hh.
    apply elem_of_getHexesInRange in Hh.
    pose proof (hexDistance_nonneg center h). lia.
  - destruct center as [cq cr]. unfold getHexesInRange.
    change (seqZ (- 0) (0 - - 0 + 1)) with [0].
    rewrite bind_cons, app_nil_r. cbv zeta.
    change (seqZ _ _) with [0]. cbn. by rewrite !Z.add_0_r.
  - intros n m h Hnm. rewrite !elem_of_getHexesInRange. lia.
  - intros h. rewrite elem_of_getHexesInRange, elem_of_getNeighbors.
    destruct center as [cq cr], h as [hq hr].
    unfold hexDistance. cbn [q r]. split.
    + intros H.
      destruct (decide (hq = cq /\ hr = cr)) as [[-> ->]|Hne]; [by left|].
      right. zdiv_lia.
    + intros [[= -> ->]|H]; zdiv_lia.
Qed.

Lemma getHexesInRange_small_and_monotone_witness :
  mkHex 1 0 ∈ getHexesInRange (mkHex 0 0) 3.
Proof.
  destruct (getHexesInRange_small_and_monotone (mkHex 0 0))
    as (_ & _ & Hmono & Hone).
  apply (Hmono 1 3); [lia|].
  apply Hone. right. apply (bool_decide_unpack _). by vm_compute.
Defined.

(* --------------------------------------------------------------------- *)
(** *** The walk of [getHexRing] *)

Lemma ringSides_cons (i : nat) (dirs : list nat) (n : nat) (h : Hex) :
  ringSides (i :: dirs) n h
  = (ringSide i n h).1 ++ ringSides dirs n (ringSide i n h).2.
Proof. simpl. by destruct (ringSide i n h). Qed.

Lemma ringSide_last (i n : nat) (h : Hex) :
  (ringSide i (S n) h).2 = (ringSide i n (getNeighbor h i)).2.
Proof. simpl. by destruct (ringSide i n (getNeighbor h i)). Qed.

(** A side of the walk: the [n] hexes [h + k d] for [k < n], [d] being the
    direction vector, and the walk ends on [h + n d]. *)
Lemma ringSide_explicit (i n : nat) :
  forall h : Hex,
    let d := nth (i mod 6)%nat HEX_DIRECTIONS (mkHex 0 0) in
    (ringSide i n h).1
    = (fun k : nat => mkHex (q h + Z.of_nat k * q d) (r h + Z.of_nat k * r d))
        <$> seq 0 n
    /\ (ringSide i n h).2
       = mkHex (q h + Z.of_nat n * q d) (r h + Z.of_nat n * r d).
Proof.
  induction n as [|n IH]; intros [hq hr] d.
  - cbn [ringSide fst snd seq fmap list_fmap q r]. split; [done|f_equal; lia].
  - rewrite ringSide_cons, ringSide_last.
    destruct (IH (getNeighbor (mkHex hq hr) i)) as [IH1 IH2]. fold d in IH1, IH2.
    rewrite IH1, IH2.
    change (getNeighbor (mkHex hq hr) i) with (mkHex (hq + q d) (hr + r d)).
    cbn [q r]. split.
    + cbn [seq fmap list_fmap]. f_equal; [f_equal; lia|].
      rewrite <- fmap_S_seq, <- list_fmap_compose.
      apply list_fmap_ext. intros _ k _. cbn. f_equal; lia.
    + f_equal; lia.
Qed.

Lemma length_ringSides (dirs : list nat) (n : nat) :
  forall h, length (ringSides dirs n h) = (length dirs * n)%nat.
Proof.
  induction dirs as [|i dirs IH]; intros h; [done|].
  rewrite ringSides_cons, length_app, IH.
  destruct (ringSide_explicit i n h) as [-> _].
  rewrite length_fmap, length_seq. simpl. lia.
Qed.

(** X6. For a radius of at least 1, [getHexRing] returns [6 * radius]
    hexes, every one of them at distance [radius] from the hex
    [center + (radius, - 2 radius)]; for a negative radius it returns
    nothing. *)
Theorem getHexRing_walk (center : Hex) (radius : Z) :
  (radius < 0 -> getHexRing center radius = [])
  /\ (1 <= radius ->
      Z.of_nat (length (getHexRing center radius)) = 6 * radius
      /\ forall h, h ∈ getHexRing center radius ->
           hexDistance
             (mkHex (q center + radius) (r center - 2 * radius)) h
           = radius).
Proof.
  split.
  - intros Hr. unfold getHexRing.
    destruct (Z.eqb_spec radius 0) as [|_]; [lia|].
    apply nil_length_inv. rewrite length_ringSides.
    replace (Z.to_nat radius) with 0%nat by lia. lia.
  - intros Hr. unfold getHexRing.
    destruct (Z.eqb_spec radius 0) as [|_]; [lia|]. split.
    + rewrite length_ringSides. simpl. lia.
    + intros h. destruct center as [cq cr]. cbn [seq].
      set (n := Z.to_nat radius).
      repeat (rewrite ringSides_cons;
              match goal with
              | |- context [ringSide ?i n ?p] =>
                  destruct (ringSide_explicit i n p) as [-> ->]
              end).
      cbn [ringSides hexAdd q r nth Nat.modulo Nat.divmod fst snd
           HEX_DIRECTIONS].
      rewrite !elem_of_app, !list_elem_of_fmap, elem_of_nil.
      unfold hexDistance. subst n.
      intros [H|[H|[H|[H|[H|[H|[]]]]]]];
        destruct H as (k & -> & Hk%elem_of_seq); cbn [q r Nat.sub]; zdiv_lia.
Qed.

Lemma getHexRing_walk_witness :
  Z.of_nat (length (getHexRing (mkHex 0 0) 2)) = 6 * 2
  /\ hexDistance (mkHex (0 + 2) (0 - 2 * 2)) (mkHex 4 (-4)) = 2.
Proof.
  destruct (getHexRing_walk (mkHex 0 0) 2) as [_ Hring].
  destruct (Hring ltac:(lia)) as [Hlen Hdist].
  split; [exact Hlen|].
  apply Hdist. apply (bool_decide_unpack _). by vm_compute.
Defined.

(* ===================================================================== *)
(** * Further properties of the string keys *)
(* ===================================================================== *)

(** X7. Two hexes have the same key only if they are the same hex; so an
    entry written on a board under the key of one hex is read back under
    the key of another hex only when both are the same. *)
Theorem hexToKey_distinct (a b : Hex) (entry : GameHex)
    (gameMap : gmap string GameHex) :
  (hexToKey a = hexToKey b <-> a = b)
  /\ <[hexToKey a := entry]> gameMap !! hexToKey b
     = if decide (a = b) then Some entry else gameMap !! hexToKey b.
Proof.
  split.
  - split; [apply hexToKey_inj | by intros ->].
  - destruct (decide (a = b)) as [->|Hne].
    + apply lookup_insert_eq.
    + apply lookup_insert_ne. intros H. by apply Hne, hexToKey_inj.
Qed.

Lemma append_assoc_sep (s1 s2 s3 : string) :
  String.append (String.append s1 s2) s3
  = String.append s1 (String.append s2 s3).
Proof.
  induction s1 as [|c s1 IH]; [done|].
  change (String c (String.append (String.append s1 s2) s3)
          = String c (String.append s1 (String.append s2 s3))).
  by rewrite IH.
Qed.

(** X8. [keyToHex] decodes no key without a comma, and it reads the first
    two parts of a key only: whatever follows a second comma is ignored. *)
Theorem keyToHex_parts (h : Hex) (rest : string) :
  (forall s, occursIn "," s = false -> keyToHex s = None)
  /\ keyToHex (String.append (hexToKey h) (String "," rest)) = Some h.
Proof.
  split.
  - intros s Hs. unfold keyToHex. rewrite splitOn_no_separator by done.
    cbn [fmap list_fmap]. by destruct (parseNumber s).
  - unfold keyToHex, hexToKey.
    rewrite append_assoc_sep.
    change (String.append (String "," (numberToString (r h))) (String "," rest))
      with (String "," (String.append (numberToString (r h)) (String "," rest))).
    rewrite !splitOn_append by apply occursIn_numberToString.
    cbn [fmap list_fmap]. rewrite !parseNumber_numberToString.
    by destruct h.
Qed.

Lemma keyToHex_parts_witness :
  keyToHex "12" = None /\ keyToHex "1,-2,3" = Some (mkHex 1 (-2)).
Proof.
  destruct (keyToHex_parts (mkHex 1 (-2)) "3") as [Hnone Hrest].
  split; [by apply Hnone | exact Hrest].
Defined.

(* ===================================================================== *)
(** * Further properties of the line of sight *)
(* ===================================================================== *)

(** X9. Rounding a fractional hex whose coordinates are the integers of a
    hex returns that hex. *)
Theorem hexRound_of_hex (h : Hex) :
  hexRound {| fq := inject_Z (q h); fr := inject_Z (r h) |} = h.
Proof.
  destruct h as [hq hr]. cbn [q r].
  apply hexRound_integer; reflexivity.
Qed.

(** X10. The line between two hexes has one sample more than their
    distance; it starts on the first hex and ends on the second. *)
Theorem getHexLine_ends (a b : Hex) :
  Z.of_nat (length (getHexLine a b)) = hexDistance a b + 1
  /\ head (getHexLine a b) = Some a
  /\ last (getHexLine a b) = Some b.
Proof.
  pose proof (hexDistance_nonneg a b) as Hd. split_and!.
  - rewrite length_getHexLine. lia.
  - rewrite head_lookup. apply getHexLine_first.
  - rewrite last_lookup, length_getHexLine.
    replace (Nat.pred (Z.to_nat (hexDistance a b + 1)))
      with (Z.to_nat (hexDistance a b)) by lia.
    apply getHexLine_last.
Qed.

Lemma sightLoop_ext (line : list Hex) (m m' : gmap string GameHex)
    (indices : list nat) :
  (forall h, from_option blocksSight false (m !! hexToKey h)
             = from_option blocksSight false (m' !! hexToKey h)) ->
  sightLoop line m indices = sightLoop line m' indices.
Proof.
  intros Hsame. induction indices as [|i rest IH]; simpl; [done|].
  destruct (line !! i) as [h|]; [|done].
  specialize (Hsame h).
  destruct (m !! hexToKey h) as [hex|], (m' !! hexToKey h) as [hex'|];
    simpl in Hsame.
  - rewrite Hsame. destruct (blocksSight hex'); [done | apply IH].
  - rewrite Hsame. apply IH.
  - rewrite <- Hsame. apply IH.
  - apply IH.
Qed.

(** X11. Line of sight depends on the board only through the hexes that
    carry Wall or Obstacle terrain: two boards that block at the same hexes
    give the same answer, so occupants, items and the other terrains never
    matter, and a board without Wall and Obstacle never blocks. *)
Theorem hasLineOfSight_terrain_only (a b : Hex)
    (m m' : gmap string GameHex) :
  ((forall h, from_option blocksSight false (m !! hexToKey h)
              = from_option blocksSight false (m' !! hexToKey h)) ->
   hasLineOfSight a b m = hasLineOfSight a b m')
  /\ ((forall key hex, m !! key = Some hex -> blocksSight hex = false) ->
      hasLineOfSight a b m = true).
Proof.
  split.
  - intros Hsame. unfold hasLineOfSight.
    destruct (hexEquals a b); [done|]. by apply sightLoop_ext.
  - intros Hclear. unfold hasLineOfSight.
    destruct (hexEquals a b); [done|].
    apply not_false_iff_true. intros Hfalse.
    apply sightLoop_false in Hfalse as (i & h & hex & _ & _ & Hm & Hb).
    + by rewrite (Hclear _ _ Hm) in Hb.
    + apply Forall_forall. intros i Hi%elem_of_seq. lia.
Qed.

Lemma hasLineOfSight_terrain_only_witness :
  hasLineOfSight (mkHex 0 0) (mkHex 2 0)
    (with_occupant (Some "x"%string) <$> createTestMap (-3) 3)
  = hasLineOfSight (mkHex 0 0) (mkHex 2 0) (createTestMap (-3) 3).
Proof.
  apply (proj1 (hasLineOfSight_terrain_only (mkHex 0 0) (mkHex 2 0) _ _)).
  intros h. rewrite lookup_fmap.
  by destruct (createTestMap (-3) 3 !! hexToKey h).
Defined.


(* ===================================================================== *)
(** * Further properties of the path finding *)
(* ===================================================================== *)

(** X12. A Wall can be entered only on foot with [ignoreObstacles]:
    never when flying or jumping. An occupant bars a hex only on foot
    without [ignoreFigures]: when flying, jumping or ignoring figures the
    occupant of a hex does not change whether it can be entered. *)
Theorem isPassable_walls_and_figures (hex : GameHex)
    (options : MovementOptions) (occ : option string) :
  (terrain hex = Some TerrainType.WALL ->
   (isPassable hex options = true
    <-> canFly options = false /\ canJump options = false
        /\ ignoreObstacles options = true))
  /\ (canFly options = true \/ canJump options = true
      \/ ignoreFigures options = true ->
      isPassable (with_occupant occ hex) options = isPassable hex options).
Proof.
  unfold isPassable, terrainIs. split.
  - intros Hwall. rewrite Hwall.
    destruct (canFly options), (canJump options), (ignoreObstacles options);
      vm_compute; intuition congruence.
  - cbn [terrain occupant with_occupant]. intros Hopt.
    destruct (canFly options); [done|].
    destruct (canJump options); [done|].
    destruct Hopt as [?|[?|Hfig]]; try done. rewrite Hfig.
    by rewrite !andb_false_r.
Qed.

Lemma isPassable_walls_and_figures_witness :
  isPassable
    (with_terrain TerrainType.WALL
       (mkGameHex "w" (mkHex 1 0) None None None None None))
    (walkOptions 3) = false.
Proof.
  destruct (isPassable_walls_and_figures
              (with_terrain TerrainType.WALL
                 (mkGameHex "w" (mkHex 1 0) None None None None None))
              (walkOptions 3) None) as [Hwall _].
  apply not_true_iff_false. intros Hpass.
  apply (Hwall eq_refl) in Hpass as (_ & _ & Hign). discriminate.
Defined.

Lemma getMovementCost_bounds (hex : GameHex) (options : MovementOptions) :
  1 <= getMovementCost hex options <= 2.
Proof.
  unfold getMovementCost.
  destruct (canFly options); [lia|].
  destruct (_ && _); lia.
Qed.

Lemma decode_key (k : string) (h : Hex) : k = hexToKey h -> keyToHex k = Some h.
Proof.
  intros ->. unfold keyToHex. rewrite splitOn_hexToKey. cbn [fmap list_fmap].
  rewrite !parseNumber_numberToString. by destruct h.
Qed.

Lemma elem_of_setAdd (k x : string) (l : list string) :
  k ∈ setAdd x l <-> k ∈ l \/ k = x.
Proof.
  unfold setAdd. case_bool_decide.
  - split; [auto|]. intros [?| ->]; done.
  - rewrite elem_of_app, list_elem_of_singleton. done.
Qed.

Lemma elem_of_setDelete (k x : string) (l : list string) :
  k ∈ setDelete x l -> k ∈ l.
Proof. unfold setDelete. by intros [_ ?]%list_elem_of_filter. Qed.

Lemma lowestFScore_elem (scores : gmap string Z) (nodes : list string) :
  forall acc res,
    foldl (fun acc node =>
             let f := scoreOf scores node in
             if cost_ltb f (snd acc) then (node, f) else acc)
          acc nodes = res ->
    fst res = fst acc \/ fst res ∈ nodes.
Proof.
  induction nodes as [|node nodes IH]; intros acc res Hres.
  - left. by rewrite <- Hres.
  - cbn [foldl] in Hres. apply IH in Hres as [Heq|Hin].
    + cbv zeta in Heq.
      destruct (cost_ltb (scoreOf scores node) acc.2); cbn [fst] in Heq.
      * right. rewrite Heq. apply list_elem_of_here.
      * by left.
    + right. by apply list_elem_of_further.
Qed.

Lemma keyToHex_empty : keyToHex "" = None.
Proof. reflexivity. Qed.

Section SearchInvariant.
Variables (start goal : Hex) (gameMap : gmap string GameHex).
Variable options : MovementOptions.

Lemma reachedKey_insert (cf : gmap string string) (k p x : string) :
  reachedKey start cf x -> reachedKey start (<[k := p]> cf) x.
Proof.
  intros [->|Hx]; [by left|]. right.
  destruct (decide (k = x)) as [->|Hne].
  - rewrite lookup_insert_eq. by eexists.
  - by rewrite lookup_insert_ne.
Qed.

Lemma reachedKey_decodes (cf : gmap string string) (k : string) :
  parentsOK start gameMap options cf ->
  reachedKey start cf k -> exists h, keyToHex k = Some h.
Proof.
  intros Hcf [->|[p Hp]].
  - exists start. by apply decode_key.
  - destruct (Hcf k p Hp) as (_ & hp & n & _ & _ & -> & _).
    exists n. by apply decode_key.
Qed.

Lemma visitNeighbor_inv (current : string) (currentHex n : Hex) (s : Search) :
  searchInv start gameMap options s ->
  keyToHex current = Some currentHex ->
  reachedKey start (cameFrom s) current ->
  n ∈ getNeighbors currentHex ->
  searchInv start gameMap options
    (visitNeighbor goal gameMap options current s n)
  /\ reachedKey start
       (cameFrom (visitNeighbor goal gameMap options current s n)) current.
Proof.
  intros (Hopen & Hcf & Hg) Hcur Hreached Hn.
  assert (Hsame : searchInv start gameMap options s
                  /\ reachedKey start (cameFrom s) current)
    by (split; [exact (conj Hopen (conj Hcf Hg)) | exact Hreached]).
  remember (visitNeighbor goal gameMap options current s n) as s' eqn:Hs'.
  unfold visitNeighbor, scoreOf in Hs'.
  destruct (gameMap !! hexToKey n) as [neighborHex|] eqn:Hmap;
    [|by subst s'].
  destruct (isPassable neighborHex options) eqn:Hpass;
    cbn [negb] in Hs'; [|by subst s'].
  destruct (gScore s !! current) as [gc|] eqn:Hgc;
    cbn [cost_add cost_ltb] in Hs'; [|by subst s'].
  match type of Hs' with
  | _ = (if ?c then _ else _) => destruct c
  end; [|by subst s'].
  subst s'.
  unfold searchInv. cbn [cameFrom openSet gScore fScore].
  split; [split_and!|].
  - intros k [Hk| ->]%elem_of_setAdd.
    + destruct (Hopen k Hk) as [Hr [g Hgk]]. split.
      * by apply reachedKey_insert.
      * destruct (decide (hexToKey n = k)) as [->|Hne].
        -- rewrite lookup_insert_eq. by eexists.
        -- rewrite lookup_insert_ne by done. by eexists.
    + split.
      * right. rewrite lookup_insert_eq. by eexists.
      * rewrite lookup_insert_eq. by eexists.
  - intros k p Hkp.
    destruct (decide (hexToKey n = k)) as [<-|Hne].
    + rewrite lookup_insert_eq in Hkp. injection Hkp as <-. split.
      * by apply reachedKey_insert.
      * exists currentHex, n. split_and!; try done. by exists neighborHex.
    + rewrite lookup_insert_ne in Hkp by done.
      destruct (Hcf k p Hkp) as [Hr Hrest]. split; [|done].
      by apply reachedKey_insert.
  - intros k g Hkg.
    destruct (decide (hexToKey n = k)) as [<-|Hne].
    + rewrite lookup_insert_eq in Hkg. injection Hkg as <-.
      exists n. split; [by apply decode_key|].
      destruct (Hg current gc Hgc) as (h & Hh & Hdist).
      assert (h = currentHex) as -> by congruence.
      pose proof (hexDistance_triangle start currentHex n).
      apply elem_of_getNeighbors in Hn.
      pose proof (getMovementCost_bounds neighborHex options). lia.
    + rewrite lookup_insert_ne in Hkg by done. by apply Hg.
  - by apply reachedKey_insert.
Qed.

Lemma foldl_visitNeighbor_inv (current : string) (currentHex : Hex)
    (ns : list Hex) :
  keyToHex current = Some currentHex ->
  (forall n, n ∈ ns -> n ∈ getNeighbors currentHex) ->
  forall s,
    searchInv start gameMap options s ->
    reachedKey start (cameFrom s) current ->
    searchInv start gameMap options
      (foldl (visitNeighbor goal gameMap options current) s ns).
Proof.
  intros Hcur. induction ns as [|n ns IH]; intros Hns s Hinv Hr; [done|].
  cbn [foldl].
  destruct (visitNeighbor_inv current currentHex n s Hinv Hcur Hr) as [H1 H2].
  { apply Hns, list_elem_of_here. }
  apply IH; [|done..]. intros n' Hn'. by apply Hns, list_elem_of_further.
Qed.

Lemma reconstructLoop_sound (cf : gmap string string) :
  parentsOK start gameMap options cf ->
  forall fuel k acc p,
    reachedKey start cf k ->
    (forall i a b, acc !! i = Some a -> acc !! S i = Some b ->
                   stepOK gameMap options a b) ->
    (forall hk b, keyToHex k = Some hk -> head acc = Some b ->
                  stepOK gameMap options hk b) ->
    reconstructLoop fuel cf k acc = Some p ->
    head p = Some start
    /\ (forall i a b, p !! i = Some a -> p !! S i = Some b ->
                      stepOK gameMap options a b)
    /\ exists pre hk, keyToHex k = Some hk /\ p = pre ++ hk :: acc.
Proof.
  intros Hcf. induction fuel as [|fuel IH]; intros k acc p Hk Hacc Hhead;
    [done|].
  destruct (reachedKey_decodes cf k Hcf Hk) as [hk Hhk].
  cbn [reconstructLoop].
  destruct k as [|c k']; [by rewrite keyToHex_empty in Hhk|].
  rewrite Hhk.
  assert (Hsteps : forall i a b,
             (hk :: acc) !! i = Some a -> (hk :: acc) !! S i = Some b ->
             stepOK gameMap options a b).
  { intros [|i] a b Ha Hb; cbn in Ha, Hb.
    - injection Ha as <-. apply (Hhead hk b Hhk). by rewrite head_lookup.
    - by apply (Hacc i). }
  destruct (cf !! String c k') as [parent|] eqn:Hparent.
  - destruct (Hcf _ _ Hparent) as (Hrp & hp & n & Hhp & Hn & Hkn & Hpass).
    destruct parent as [|c' parent'];
      [by rewrite keyToHex_empty in Hhp|].
    intros Hloop. apply IH in Hloop as (Hstart & Hwalk & pre & hp' & Hhp' & ->).
    + split_and!; try done.
      exists (pre ++ [hp']), hk. split; [done|]. by rewrite <- app_assoc.
    + done.
    + done.
    + intros hp'' b Hhp'' [= <-].
      assert (hp'' = hp) as -> by congruence.
      assert (hk = n) as ->.
      { apply (decode_key _ n) in Hkn. congruence. }
      by split.
  - intros [= <-]. split_and!.
    + destruct Hk as [Hk|[? Hk]]; [|congruence].
      apply (decode_key _ start) in Hk. cbn. congruence.
    + done.
    + by exists [], hk.
Qed.

Lemma searchLoop_sound (fuel : nat) :
  forall s res,
    searchInv start gameMap options s ->
    searchLoop fuel goal gameMap options s = Some res ->
    isValid res = true ->
    head (path res) = Some start
    /\ last (path res) = Some goal
    /\ (forall i a b, path res !! i = Some a -> path res !! S i = Some b ->
                      stepOK gameMap options a b)
    /\ exists c, cost res = Finite c /\ hexDistance start goal <= c.
Proof.
  induction fuel as [|fuel IH]; intros s res Hinv Hres Hvalid; [done|].
  cbn [searchLoop] in Hres.
  destruct (openSet s) as [|k0 rest] eqn:Hopen.
  { injection Hres as <-. discriminate. }
  rewrite <- Hopen in Hres.
  destruct (keyToHex (lowestFScore (openSet s) (fScore s)).1)
    as [currentHex|] eqn:Hcur; [|done].
  assert (Hin : (lowestFScore (openSet s) (fScore s)).1 ∈ openSet s).
  { destruct (lowestFScore_elem (fScore s) (openSet s) (EmptyString, Infinity)
                (lowestFScore (openSet s) (fScore s)) eq_refl)
      as [Heq|Hin]; [|done].
    rewrite Heq in Hcur. discriminate. }
  destruct Hinv as (Hopens & Hcf & Hg).
  destruct (Hopens _ Hin) as [Hreached [g Hgcur]].
  destruct (hexEquals currentHex goal) eqn:Hgoal.
  - apply hexEquals_eq in Hgoal as ->.
    unfold reconstructPath in Hres.
    destruct (reconstructLoop _ _ _ _) as [p|] eqn:Hloop; [|done].
    injection Hres as <-. cbn [path cost].
    apply (reconstructLoop_sound _ Hcf) in Hloop
      as (Hstart & Hwalk & pre & hk & Hhk & ->); try done.
    assert (hk = goal) as -> by congruence.
    split_and!; try done.
    + by rewrite last_snoc.
    + rewrite Hgcur. cbn. exists g. split; [done|].
      destruct (Hg _ _ Hgcur) as (h & Hh & Hdist).
      by assert (h = goal) as <- by congruence.
  - apply IH in Hres; [done| |done].
    apply (foldl_visitNeighbor_inv _ currentHex); try done.
    split_and!; try done.
    intros k Hk. cbn [openSet] in Hk. apply elem_of_setDelete in Hk.
    by apply Hopens.
Qed.

Lemma findPath_sound (fuel : nat) (res : PathResult) :
  findPath fuel start goal gameMap options = Some res ->
  isValid res = true ->
  head (path res) = Some start
  /\ last (path res) = Some goal
  /\ (forall i a b, path res !! i = Some a -> path res !! S i = Some b ->
                    stepOK gameMap options a b)
  /\ exists c, cost res = Finite c /\ hexDistance start goal <= c.
Proof.
  unfold findPath.
  destruct (range options <? hexDistance start goal).
  { intros [= <-]. discriminate. }
  apply searchLoop_sound. split_and!.
  - intros k ->%list_elem_of_singleton. cbn. split; [by left|].
    rewrite lookup_singleton_eq. by eexists.
  - intros k p Hkp. cbn in Hkp. by rewrite lookup_empty in Hkp.
  - intros k g Hkg. cbn [gScore] in Hkg.
    apply lookup_singleton_Some in Hkg as [<- <-].
    exists start. split; [by apply decode_key|].
    unfold hexDistance. zdiv_lia.
Qed.

End SearchInvariant.

Lemma searchLoop_invalid (goal : Hex) (gameMap : gmap string GameHex)
    (options : MovementOptions) (fuel : nat) :
  forall s res,
    searchLoop fuel goal gameMap options s = Some res ->
    isValid res = false -> res = notFound.
Proof.
  induction fuel as [|fuel IH]; intros s res Hres Hinvalid; [done|].
  cbn [searchLoop] in Hres.
  destruct (openSet s); [by injection Hres|].
  destruct (keyToHex _); [|done].
  destruct (hexEquals _ goal).
  - unfold reconstructPath in Hres.
    destruct (reconstructLoop _ _ _ _); [|done].
    injection Hres as <-. discriminate.
  - by apply IH in Hres.
Qed.

(** X13. A valid result of [findPath] holds a walk from the start to the
    goal: the path begins with the start hex, ends with the goal hex, and
    each hex of it is one of the six neighbors of the hex before. *)
Theorem findPath_path_is_walk (fuel : nat) (start goal : Hex)
    (gameMap : gmap string GameHex) (options : MovementOptions)
    (res : PathResult) :
  findPath fuel start goal gameMap options = Some res ->
  isValid res = true ->
  head (path res) = Some start
  /\ last (path res) = Some goal
  /\ forall i a b, path res !! i = Some a -> path res !! S i = Some b ->
                   hexDistance a b = 1.
Proof.
  intros Hres Hvalid.
  destruct (findPath_sound start goal gameMap options fuel res Hres Hvalid)
    as (Hhead & Hlast & Hwalk & _).
  split_and!; try done.
  intros i a b Ha Hb. destruct (Hwalk i a b Ha Hb) as [Hn _].
  by apply elem_of_getNeighbors.
Qed.

Lemma findPath_path_is_walk_witness :
  let res := {| path := [mkHex 0 0; mkHex 0 1; mkHex 1 1; mkHex 2 0];
                cost := Finite 3; isValid := true |} in
  findPath 100 (mkHex 0 0) (mkHex 2 0)
    (setTerrain (mkHex 1 0) TerrainType.WALL (createTestMap 0 4))
    (walkOptions 2) = Some res
  /\ head (path res) = Some (mkHex 0 0)
  /\ last (path res) = Some (mkHex 2 0).
Proof.
  intros res.
  assert (Hres : findPath 100 (mkHex 0 0) (mkHex 2 0)
                   (setTerrain (mkHex 1 0) TerrainType.WALL (createTestMap 0 4))
                   (walkOptions 2) = Some res) by (by vm_compute).
  split; [exact Hres|].
  destruct (findPath_path_is_walk 100 (mkHex 0 0) (mkHex 2 0) _ _ res
              Hres eq_refl) as (Hhead & Hlast & _).
  by split.
Defined.

(** X14. A valid result of [findPath] never crosses a hex that cannot be
    entered: every hex of the path after the first is on the board and
    passes [isPassable] under the options; so the goal itself, unless it is
    the start, is on the board and can be entered. *)
Theorem findPath_path_passable (fuel : nat) (start goal : Hex)
    (gameMap : gmap string GameHex) (options : MovementOptions)
    (res : PathResult) :
  findPath fuel start goal gameMap options = Some res ->
  isValid res = true ->
  (forall i h, path res !! S i = Some h ->
     exists hex, gameMap !! hexToKey h = Some hex
                 /\ isPassable hex options = true)
  /\ (start <> goal ->
      exists hex, gameMap !! hexToKey goal = Some hex
                  /\ isPassable hex options = true).
Proof.
  intros Hres Hvalid.
  destruct (findPath_sound start goal gameMap options fuel res Hres Hvalid)
    as (Hhead & Hlast & Hwalk & _).
  assert (Hafter : forall i h, path res !! S i = Some h ->
            exists hex, gameMap !! hexToKey h = Some hex
                        /\ isPassable hex options = true).
  { intros i h Hh.
    destruct (lookup_lt_is_Some_2 (path res) i) as [a Ha].
    { apply lookup_lt_Some in Hh. lia. }
    by destruct (Hwalk i a h Ha Hh) as [_ Hpass]. }
  split; [done|]. intros Hne.
  rewrite head_lookup in Hhead. rewrite last_lookup in Hlast.
  destruct (Nat.pred (length (path res))) as [|i] eqn:Hlen.
  - congruence.
  - by apply (Hafter i).
Qed.

Lemma findPath_path_passable_witness :
  exists hex,
    setTerrain (mkHex 1 0) TerrainType.WALL (createTestMap 0 4)
      !! hexToKey (mkHex 2 0) = Some hex
    /\ isPassable hex (walkOptions 2) = true.
Proof.
  assert (Hres : findPath 100 (mkHex 0 0) (mkHex 2 0)
                   (setTerrain (mkHex 1 0) TerrainType.WALL (createTestMap 0 4))
                   (walkOptions 2)
                 = Some {| path := [mkHex 0 0; mkHex 0 1; mkHex 1 1; mkHex 2 0];
                           cost := Finite 3; isValid := true |})
    by (by vm_compute).
  destruct (findPath_path_passable 100 (mkHex 0 0) (mkHex 2 0) _ _ _
              Hres eq_refl) as [_ Hgoal].
  apply Hgoal. discriminate.
Defined.

(** X15. The cost of a valid result of [findPath] is a number, not
    [Infinity], and it is at least the hex distance from the start to the
    goal, which is itself within the range; a result that is not valid is
    always the empty path with cost [Infinity]. *)
Theorem findPath_cost_bounds (fuel : nat) (start goal : Hex)
    (gameMap : gmap string GameHex) (options : MovementOptions)
    (res : PathResult) :
  findPath fuel start goal gameMap options = Some res ->
  (isValid res = true ->
   exists c, cost res = Finite c
             /\ hexDistance start goal <= c
             /\ hexDistance start goal <= range options)
  /\ (isValid res = false ->
      res = {| path := []; cost := Infinity; isValid := false |}).
Proof.
  intros Hres. split.
  - intros Hvalid.
    destruct (findPath_sound start goal gameMap options fuel res Hres Hvalid)
      as (_ & _ & _ & c & Hc & Hdist).
    exists c. split_and!; try done.
    by apply (findPath_valid_distance fuel start goal gameMap options res).
  - intros Hinvalid. unfold findPath in Hres.
    destruct (range options <? hexDistance start goal).
    + by injection Hres.
    + by apply searchLoop_invalid in Hres.
Qed.

Lemma findPath_cost_bounds_witness :
  hexDistance (mkHex 0 0) (mkHex 2 0) <= 3
  /\ hexDistance (mkHex 0 0) (mkHex 2 0) <= range (walkOptions 5).
Proof.
  assert (Hres : findPath 100 (mkHex 0 0) (mkHex 2 0)
                   (setTerrain (mkHex 1 0) TerrainType.DIFFICULT
                               (createTestMap 0 4))
                   (walkOptions 5)
                 = Some {| path := [mkHex 0 0; mkHex 1 0; mkHex 2 0];
                           cost := Finite 3; isValid := true |})
    by (by vm_compute).
  destruct (findPath_cost_bounds 100 (mkHex 0 0) (mkHex 2 0) _ _ _ Hres)
    as [Hvalid _].
  destruct (Hvalid eq_refl) as (c & [= <-] & Hdist & Hrange).
  by split.
Defined.

(** X16. From a hex to itself [findPath] answers at once, whatever the
    board holds: with a range of at least 0 the path is that one hex at cost
    0, also when the hex is a Wall or is not on the board; with a negative
    range the result is not valid. *)
Theorem findPath_same_hex (fuel : nat) (start : Hex)
    (gameMap : gmap string GameHex) (options : MovementOptions) :
  (0 <= range options ->
   findPath (S fuel) start start gameMap options
   = Some {| path := [start]; cost := Finite 0; isValid := true |})
  /\ (range options < 0 ->
      findPath fuel start start gameMap options
      = Some {| path := []; cost := Infinity; isValid := false |}).
Proof.
  assert (Hd : hexDistance start start = 0)
    by (unfold hexDistance; zdiv_lia).
  unfold findPath. rewrite Hd. split; intros Hrange.
  - rewrite (proj2 (Z.ltb_ge _ _)) by lia.
    assert (Hlow : lowestFScore [hexToKey start] {[hexToKey start := 0]}
                   = (hexToKey start, Finite 0)).
    { unfold lowestFScore, scoreOf. cbn [foldl].
      by rewrite lookup_singleton_eq. }
    cbn [searchLoop openSet fScore cameFrom gScore].
    rewrite Hlow. cbn [fst].
    rewrite (decode_key _ start eq_refl).
    rewrite (proj2 (hexEquals_eq start start) eq_refl).
    rewrite lookup_singleton_eq. cbn [default from_option].
    unfold reconstructPath. cbn [reconstructLoop].
    destruct (hexToKey start) as [|c k] eqn:Hkey.
    + pose proof (decode_key _ start (eq_sym Hkey)). discriminate.
    + rewrite <- Hkey, (decode_key _ start eq_refl), lookup_empty.
      reflexivity.
  - by rewrite (proj2 (Z.ltb_lt _ _)) by lia.
Qed.

Lemma findPath_same_hex_witness :
  findPath 1 (mkHex 7 7) (mkHex 7 7) (createTestMap 0 4) (walkOptions 0)
  = Some {| path := [mkHex 7 7]; cost := Finite 0; isValid := true |}.
Proof.
  apply (proj1 (findPath_same_hex 0 (mkHex 7 7) (createTestMap 0 4)
                  (walkOptions 0))).
  cbn. lia.
Defined.

(* ===================================================================== *)
(** * Properties of the target selection *)
(* ===================================================================== *)

Lemma hexEquals_false (a b : Hex) : hexEquals a b = false <-> a <> b.
Proof.
  rewrite <- hexEquals_eq. by destruct (hexEquals a b).
Qed.

Lemma hasLineOfSight_adjacent (a b : Hex) (gameMap : gmap string GameHex) :
  hexDistance a b = 1 -> hasLineOfSight a b gameMap = true.
Proof.
  intros Hd. unfold hasLineOfSight. destruct (hexEquals a b); [done|].
  rewrite length_getHexLine, Hd. reflexivity.
Qed.

Lemma elem_of_melee_targets (attacker : Hex) (gameMap : gmap string GameHex)
    (hex : GameHex) :
  hex ∈ getValidTargets attacker 0 gameMap
  <-> exists n, hexDistance attacker n = 1
                /\ gameMap !! hexToKey n = Some hex
                /\ truthy (occupant hex) = true.
Proof.
  unfold getValidTargets. cbn [Z.eqb].
  rewrite list_elem_of_filter, list_elem_of_omap.
  setoid_rewrite elem_of_getNeighbors. split.
  - intros (Hocc & n & Hn & Hm). by exists n.
  - intros (n & Hn & Hm & Hocc). split; [done|]. by exists n.
Qed.

Lemma elem_of_ranged_targets (attacker : Hex) (range : Z)
    (gameMap : gmap string GameHex) (hex : GameHex) :
  range <> 0 ->
  hex ∈ getValidTargets attacker range gameMap
  <-> exists h, hexDistance attacker h <= range
                /\ gameMap !! hexToKey h = Some hex
                /\ truthy (occupant hex) = true
                /\ coords hex <> attacker
                /\ hasLineOfSight attacker (coords hex) gameMap = true.
Proof.
  intros Hr. unfold getValidTargets.
  rewrite (proj2 (Z.eqb_neq _ _) Hr). cbv zeta.
  rewrite !list_elem_of_filter, list_elem_of_omap, hexEquals_false.
  setoid_rewrite elem_of_getHexesInRange. split.
  - intros (Hlos & Hne & Hocc & h & Hh & Hm). exists h. by split_and!.
  - intros (h & Hh & Hm & Hocc & Hne & Hlos). split_and!; eauto.
Qed.

(** X17. [getValidTargets] at range 0 returns the occupied board hexes
    stored under the keys of the six neighbors of the attacker; at another
    range it returns the occupied board hexes stored under the keys of the
    hexes within that distance, whose own coordinates are not the
    attacker's and are in line of sight; a negative range gives no target.
    An occupant that is the empty string does not count. *)
Theorem getValidTargets_spec (attacker : Hex) (range : Z)
    (gameMap : gmap string GameHex) (hex : GameHex) :
  (hex ∈ getValidTargets attacker 0 gameMap
   <-> exists n, hexDistance attacker n = 1
                 /\ gameMap !! hexToKey n = Some hex
                 /\ truthy (occupant hex) = true)
  /\ (range <> 0 ->
      (hex ∈ getValidTargets attacker range gameMap
       <-> exists h, hexDistance attacker h <= range
                     /\ gameMap !! hexToKey h = Some hex
                     /\ truthy (occupant hex) = true
                     /\ coords hex <> attacker
                     /\ hasLineOfSight attacker (coords hex) gameMap = true))
  /\ (range < 0 -> getValidTargets attacker range gameMap = []).
Proof.
  split_and!.
  - apply elem_of_melee_targets.
  - apply elem_of_ranged_targets.
  - intros Hr. apply elem_of_nil_inv. intros x Hx.
    apply elem_of_ranged_targets in Hx as (h & Hh & _); [|lia].
    pose proof (hexDistance_nonneg attacker h). lia.
Qed.

Lemma getValidTargets_spec_witness :
  exists hex,
    hex ∈ getValidTargets (mkHex 0 0) 2 targetTestMap
    /\ occupant hex = Some "target3"%string.
Proof.
  destruct (targetTestMap !! hexToKey (mkHex 2 0)) as [hex|] eqn:Hhex;
    [|by vm_compute in Hhex].
  exists hex.
  destruct (getValidTargets_spec (mkHex 0 0) 2 targetTestMap hex)
    as (_ & Hranged & _).
  assert (Hfields : occupant hex = Some "target3"%string
                    /\ coords hex = mkHex 2 0).
  { vm_compute in Hhex. by injection Hhex as <-. }
  destruct Hfields as [Hocc Hcoords]. split; [|done].
  apply Hranged; [lia|]. exists (mkHex 2 0).
  rewrite Hcoords, Hocc. split_and!; try done; by vm_compute.
Defined.

(** X18. On a board whose hexes are stored under the key of their own
    coordinates, range 0 and range 1 select the same targets: the occupied
    neighbors of the attacker, which are always in line of sight. *)
Theorem getValidTargets_melee_is_range_1 (attacker : Hex)
    (gameMap : gmap string GameHex) (hex : GameHex) :
  keyedByCoords gameMap ->
  hex ∈ getValidTargets attacker 0 gameMap
  <-> hex ∈ getValidTargets attacker 1 gameMap.
Proof.
  intros Hkeyed.
  rewrite elem_of_melee_targets, elem_of_ranged_targets by lia. split.
  - intros (n & Hn & Hm & Hocc). exists n.
    assert (coords hex = n) as Hc.
    { apply hexToKey_inj. symmetry. apply (Hkeyed _ _ Hm). }
    rewrite Hc. split_and!; try done.
    + lia.
    + intros ->. unfold hexDistance in Hn. zdiv_lia.
    + by apply hasLineOfSight_adjacent.
  - intros (h & Hh & Hm & Hocc & Hne & _). exists h.
    assert (coords hex = h) as Hc.
    { apply hexToKey_inj. symmetry. apply (Hkeyed _ _ Hm). }
    split_and!; try done.
    pose proof (hexDistance_nonneg attacker h).
    destruct (decide (hexDistance attacker h = 0)) as [H0|]; [|lia].
    exfalso. apply Hne. rewrite Hc.
    destruct attacker, h. unfold hexDistance in H0. cbn [q r] in H0.
    f_equal; zdiv_lia.
Qed.

Lemma getValidTargets_melee_is_range_1_witness :
  keyedByCoords targetTestMap
  /\ forall hex, hex ∈ getValidTargets (mkHex 0 0) 0 targetTestMap
                 <-> hex ∈ getValidTargets (mkHex 0 0) 1 targetTestMap.
Proof.
  assert (Hkeyed : keyedByCoords targetTestMap).
  { apply (bool_decide_unpack _). by vm_compute. }
  split; [done|]. intros hex.
  by apply getValidTargets_melee_is_range_1.
Defined.

(* ===================================================================== *)
(** * Further properties of the store *)
(* ===================================================================== *)

Lemma spliceOut_cons (x y : string) (l : list string) :
  spliceOut x (y :: l) = if decide (y = x) then l else y :: spliceOut x l.
Proof.
  unfold spliceOut. cbn [list_find].
  destruct (decide (y = x)) as [Heq|Hne]; [done|].
  by destruct (list_find (fun m => m = x) l) as [[i z]|].
Qed.

Lemma elem_of_spliceOut (x y : string) (l : list string) :
  NoDup l -> y ∈ spliceOut x l <-> y ∈ l /\ y <> x.
Proof.
  induction 1 as [|z l Hz Hl IH].
  { change (spliceOut x []) with (@nil string). rewrite elem_of_nil. tauto. }
  rewrite spliceOut_cons. destruct (decide (z = x)) as [->|Hne].
  - rewrite elem_of_cons. split.
    + intros Hy. split; [by right|]. by intros ->.
    + by intros [[->|Hy] Hyx].
  - rewrite !elem_of_cons, IH. split.
    + intros [->|[Hy Hyx]]; [by split; [left|]|by split; [right|]].
    + intros [[->|Hy] Hyx]; [by left|by right].
Qed.

Lemma NoDup_spliceOut (x : string) (l : list string) :
  NoDup l -> NoDup (spliceOut x l).
Proof.
  intros Hl. unfold spliceOut.
  destruct (list_find _ l) as [[i z]|]; [|done].
  eapply sublist_NoDup; [done | apply sublist_delete].
Qed.

Lemma spliceOut_absent (x : string) (l : list string) :
  x ∉ l -> spliceOut x l = l.
Proof.
  induction l as [|y l IH]; [done|].
  rewrite not_elem_of_cons, spliceOut_cons. intros [Hne Hx].
  destruct (decide (y = x)); [congruence|]. by rewrite IH.
Qed.

Lemma spliceOut_snoc (x : string) (l : list string) :
  x ∉ l -> spliceOut x (l ++ [x]) = l.
Proof.
  induction l as [|y l IH]; cbn [app].
  - intros _. rewrite spliceOut_cons. by destruct (decide (x = x)).
  - rewrite not_elem_of_cons, spliceOut_cons. intros [Hne Hx].
    destruct (decide (y = x)); [congruence|]. by rewrite IH.
Qed.

Lemma storeInvariant_initial : storeInvariant createInitialGameState.
Proof.
  unfold storeInvariant. cbn. split_and!; try lia.
  - set_solver.
  - apply NoDup_nil_2.
Qed.

Ltac keep_invariant := cbn; split_and!; first [lia | done].

Lemma storeInvariant_step (st : GloomhavenGameState) (c : StoreCall) :
  storeInvariant st -> storeInvariant (runStoreCall st c).
Proof.
  unfold storeInvariant. intros (Hrep & Hprep & Hpros & Hunlocked & Hnodup).
  destruct c; cbn [runStoreCall].
  - (* setGamePhase *) keep_invariant.
  - (* addCharacter *) keep_invariant.
  - (* removeCharacter *)
    cbn. split_and!; try lia; try done. by apply NoDup_spliceOut.
  - (* moveCharacter *)
    unfold moveCharacter.
    destruct (characters st !! characterId); [|keep_invariant].
    destruct (scenario st); keep_invariant.
  - (* addToParty *)
    unfold addToParty. case_bool_decide; [keep_invariant|].
    cbn. split_and!; try lia; try done.
    apply NoDup_app. split_and!; [done| |apply NoDup_singleton].
    intros x Hx ->%list_elem_of_singleton. done.
  - (* removeFromParty *)
    cbn. split_and!; try lia; try done. by apply NoDup_spliceOut.
  - (* updatePartyLocation *) keep_invariant.
  - (* updatePartyReputation *) keep_invariant.
  - (* startScenario *) keep_invariant.
  - (* endScenario *)
    unfold endScenario. cbn [campaign party].
    destruct (scenario st) as [sc|]; [destruct success|]; keep_invariant.
  - (* updateScenarioPhase *)
    unfold updateScenarioPhase. destruct (scenario st); keep_invariant.
  - (* setInitiativeOrder *)
    unfold setInitiativeOrder. destruct (scenario st); keep_invariant.
  - (* nextTurn *)
    unfold nextTurn. destruct (scenario st); [|keep_invariant].
    cbv zeta. destruct (_ <=? _); keep_invariant.
  - (* endRound *)
    unfold endRound. destruct (scenario st); keep_invariant.
  - (* infuseElement *)
    unfold infuseElement. destruct (scenario st); keep_invariant.
  - (* consumeElement *)
    unfold consumeElement. cbv zeta.
    destruct (_ || _); [|keep_invariant].
    cbn [snd]. destruct (scenario st); keep_invariant.
  - (* waneElements *)
    unfold waneElements. destruct (scenario st); keep_invariant.
  - (* completeScenario *) keep_invariant.
  - (* unlockScenario *)
    cbn. split_and!; try lia; try done. by apply elem_of_union_r.
  - (* updateReputation *) keep_invariant.
  - (* updateProsperity *) keep_invariant.
Qed.

(** X19. From the initial state, after any finite sequence of store
    actions of any kind, both reputations are between -20 and 20, the
    prosperity is at least 1, scenario 1 is still unlocked, and no character
    id is twice in the party. *)
Theorem store_invariants (calls : list StoreCall) :
  let st := foldl runStoreCall createInitialGameState calls in
  -20 <= reputation (campaign st) <= 20
  /\ -20 <= party_reputation (party st) <= 20
  /\ 1 <= prosperity (campaign st)
  /\ 1 ∈ scenariosUnlocked (campaign st)
  /\ NoDup (members (party st)).
Proof.
  cbv zeta. change (storeInvariant (foldl runStoreCall createInitialGameState calls)).
  generalize storeInvariant_initial. generalize createInitialGameState.
  induction calls as [|c calls IH]; intros st Hst; [done|].
  cbn [foldl]. by apply IH, storeInvariant_step.
Qed.

(** X20. On a party without duplicates (which every reachable party is):
    after [addToParty] the id is a member, and adding it again changes
    nothing; after [removeFromParty] the id is no member any more while
    every other membership is as before; and removing an id that was just
    added to a party it was not in gives the party back. *)
Theorem party_add_remove (id : string) (st : GloomhavenGameState) :
  NoDup (members (party st)) ->
  id ∈ members (party (addToParty id st))
  /\ addToParty id (addToParty id st) = addToParty id st
  /\ (id ∉ members (party (removeFromParty id st)))
  /\ (forall x, x <> id ->
        (x ∈ members (party (removeFromParty id st))
         <-> x ∈ members (party st)))
  /\ (id ∉ members (party st) ->
      members (party (removeFromParty id (addToParty id st)))
      = members (party st)).
Proof.
  intros Hnodup.
  assert (Hadded : id ∈ members (party (addToParty id st))).
  { unfold addToParty. case_bool_decide; [done|]. cbn.
    apply elem_of_app. right. apply list_elem_of_here. }
  split_and!.
  - done.
  - unfold addToParty at 1. by rewrite bool_decide_eq_true_2.
  - cbn. rewrite elem_of_spliceOut by done. tauto.
  - intros x Hx. cbn. rewrite elem_of_spliceOut by done. tauto.
  - intros Hid. unfold addToParty.
    rewrite bool_decide_eq_false_2 by done. cbn.
    by apply spliceOut_snoc.
Qed.

Lemma party_add_remove_witness :
  members (party (removeFromParty "a" (addToParty "a" createInitialGameState)))
  = members (party createInitialGameState).
Proof.
  destruct (party_add_remove "a" createInitialGameState) as (_ & _ & _ & _ & H).
  - apply NoDup_nil_2.
  - apply H. apply not_elem_of_nil.
Defined.

(** X21. [removeCharacter] takes the id out of the character map and (for
    a party without duplicates) out of the party, and leaves every other
    character in place; it never touches the scenario, so a board hex can
    keep the removed id as its occupant, and [getCharacterAtPosition] then
    finds no character on that hex. Removing a character that was just
    added under a fresh id gives the character map back. *)
Theorem removeCharacter_spec (id : string) (st : GloomhavenGameState) :
  characters (removeCharacter id st) !! id = None
  /\ (forall id', id' <> id ->
        characters (removeCharacter id st) !! id' = characters st !! id')
  /\ (NoDup (members (party st)) ->
      id ∉ members (party (removeCharacter id st)))
  /\ scenario (removeCharacter id st) = scenario st
  /\ (forall sc h hex,
        scenario st = Some sc ->
        hexes (mapState sc) !! hexToKey h = Some hex ->
        occupant hex = Some id ->
        getCharacterAtPosition h (removeCharacter id st) = None)
  /\ (forall c,
        char_id c = id -> characters st !! id = None ->
        characters (removeCharacter id (addCharacter c st)) = characters st).
Proof.
  split_and!.
  - cbn. apply lookup_delete_eq.
  - intros id' Hne. cbn. by apply lookup_delete_ne.
  - intros Hnodup. cbn. rewrite elem_of_spliceOut by done. tauto.
  - reflexivity.
  - intros sc h hex Hsc Hhex Hocc. unfold getCharacterAtPosition.
    cbn [scenario removeCharacter with_party with_characters characters].
    rewrite Hsc, Hhex, Hocc.
    destruct (truthy (Some id)); [|done]. cbn. apply lookup_delete_eq.
  - intros c <- Hfresh. cbn. by rewrite delete_insert_eq, delete_id.
Qed.

Lemma removeCharacter_spec_witness :
  getCharacterAtPosition (mkHex 0 0) sampleScenario
  = characters sampleScenario !! "b"
  /\ getCharacterAtPosition (mkHex 0 0) (removeCharacter "b" sampleScenario)
     = None.
Proof.
  split; [by vm_compute|].
  destruct (removeCharacter_spec "b" sampleScenario)
    as (_ & _ & _ & _ & Hboard & _).
  destruct (scenario sampleScenario) as [sc|] eqn:Hsc;
    [|by vm_compute in Hsc].
  destruct (hexes (mapState sc) !! hexToKey (mkHex 0 0)) as [hex|] eqn:Hhex.
  - apply (Hboard sc (mkHex 0 0) hex eq_refl Hhex).
    assert (Hboth : scenario sampleScenario
                      ≫= (fun sc => hexes (mapState sc) !! hexToKey (mkHex 0 0))
                    = Some hex) by (by rewrite Hsc).
    vm_compute in Hboth. by injection Hboth as <-.
  - assert (Hboth : scenario sampleScenario
                      ≫= (fun sc => hexes (mapState sc) !! hexToKey (mkHex 0 0))
                    = None) by (by rewrite Hsc).
    by vm_compute in Hboth.
Defined.

(** X22. Without a scenario every scenario action is refused without any
    change: moving, infusing, waning, ending the round, setting the phase or
    the initiative order and advancing the turn return the state as it was,
    consuming an element answers [false], no element is available, and the
    selectors find no character. *)
Theorem no_scenario_no_effect (st : GloomhavenGameState) :
  scenario st = None ->
  (forall id h, moveCharacter id h st = st)
  /\ (forall e, infuseElement e st = st)
  /\ (forall e, consumeElement e st = (false, st))
  /\ (forall e, isElementAvailable e st = false)
  /\ waneElements st = st
  /\ endRound st = st
  /\ nextTurn st = st
  /\ (forall ph, updateScenarioPhase ph st = st)
  /\ (forall order, setInitiativeOrder order st = st)
  /\ getCurrentCharacter st = None
  /\ (forall h, getCharacterAtPosition h st = None).
Proof.
  intros Hsc. split_and!; intros;
    unfold moveCharacter, infuseElement, consumeElement, isElementAvailable,
      waneElements, endRound, nextTurn, updateScenarioPhase,
      setInitiativeOrder, getCurrentCharacter, getCharacterAtPosition;
    rewrite ?Hsc; try done.
  by destruct (characters st !! id).
Qed.

Lemma no_scenario_no_effect_witness :
  let st := endScenario true sampleInfused in
  infuseElement Element.FIRE st = st
  /\ consumeElement Element.FIRE st = (false, st).
Proof.
  intros st.
  destruct (no_scenario_no_effect st eq_refl) as (_ & Hinfuse & Hconsume & _).
  split; [apply Hinfuse | apply Hconsume].
Defined.

(** X23. With a scenario in play, [endRound] wanes the elements exactly as
    [waneElements] does, adds one to the round, empties the initiative
    order, returns to card selection and leaves the board alone; after two
    ends of round every element is Inert. *)
Theorem endRound_spec (st : GloomhavenGameState) (sc : ScenarioState) :
  scenario st = Some sc ->
  exists sc',
    scenario (endRound st) = Some sc'
    /\ Some (scenario_elements sc')
       = scenario_elements <$> scenario (waneElements st)
    /\ round sc' = round sc + 1
    /\ initiative sc' = []
    /\ phase sc' = RoundPhase.CARD_SELECTION
    /\ mapState sc' = mapState sc
    /\ forall e, elementState e (endRound (endRound st))
                 = Some ElementState.INERT.
Proof.
  intros Hsc.
  assert (Htwo : forall e, elementState e (endRound (endRound st))
                           = Some ElementState.INERT).
  { intros e. unfold elementState, endRound. rewrite Hsc.
    cbn [scenario with_scenario scenario_elements fmap option_fmap option_map].
    rewrite !getElement_waneAll.
    by destruct (getElement (scenario_elements sc) e). }
  unfold endRound at 1, waneElements. rewrite Hsc.
  eexists. split; [reflexivity|]. by cbn.
Qed.

Lemma endRound_spec_witness :
  elementState Element.FIRE (endRound sampleInfused)
  = Some ElementState.WANING
  /\ elementState Element.FIRE (endRound (endRound sampleInfused))
     = Some ElementState.INERT.
Proof.
  destruct (endRound_spec sampleInfused _ eq_refl)
    as (sc' & _ & _ & _ & _ & _ & _ & Htwo).
  split; [by vm_compute | apply Htwo].
Defined.

Lemma consumeElement_cases (e : Element.t) (st : GloomhavenGameState)
    (sc : ScenarioState) :
  scenario st = Some sc ->
  consumeElement e st
  = match getElement (scenario_elements sc) e with
    | ElementState.INERT => (false, st)
    | _ => (true,
            with_scenario
              (Some (with_elements
                       (setElement e ElementState.INERT (scenario_elements sc))
                       sc)) st)
    end.
Proof.
  intros Hsc. unfold consumeElement. rewrite Hsc.
  cbn [fmap option_fmap option_map].
  by destruct (getElement (scenario_elements sc) e).
Qed.

Lemma isElementAvailable_cases (e : Element.t) (st : GloomhavenGameState)
    (sc : ScenarioState) :
  scenario st = Some sc ->
  isElementAvailable e st
  = match getElement (scenario_elements sc) e with
    | ElementState.INERT => false
    | _ => true
    end.
Proof.
  intros Hsc. unfold isElementAvailable. rewrite Hsc.
  by destruct (getElement (scenario_elements sc) e).
Qed.

(** X24. [isElementAvailable] tells whether [consumeElement] would succeed;
    an element can be consumed once: after a consumption, successful or
    not, it is not available, and the availability of the other elements is
    as before. With a scenario in play an infused element is available. *)
Theorem element_availability (e : Element.t) (st : GloomhavenGameState) :
  isElementAvailable e st = fst (consumeElement e st)
  /\ isElementAvailable e (snd (consumeElement e st)) = false
  /\ fst (consumeElement e (snd (consumeElement e st))) = false
  /\ (forall e', e' <> e ->
        isElementAvailable e' (snd (consumeElement e st))
        = isElementAvailable e' st)
  /\ (is_Some (scenario st) -> isElementAvailable e (infuseElement e st) = true).
Proof.
  assert (Hnone : forall e0 st0, scenario st0 = None ->
            consumeElement e0 st0 = (false, st0)
            /\ isElementAvailable e0 st0 = false).
  { intros e0 st0 Hsc. unfold consumeElement, isElementAvailable.
    by rewrite Hsc. }
  assert (Hagree : forall e0 st0,
            isElementAvailable e0 st0 = fst (consumeElement e0 st0)).
  { intros e0 st0. destruct (scenario st0) as [sc0|] eqn:Hsc0.
    - rewrite (consumeElement_cases e0 st0 sc0 Hsc0),
        (isElementAvailable_cases e0 st0 sc0 Hsc0).
      by destruct (getElement (scenario_elements sc0) e0).
    - by destruct (Hnone e0 st0 Hsc0) as [-> ->]. }
  assert (Hafter : forall e',
            isElementAvailable e' (snd (consumeElement e st))
            = if decide (e = e') then false else isElementAvailable e' st).
  { intros e'. destruct (scenario st) as [sc|] eqn:Hsc.
    - rewrite (consumeElement_cases e st sc Hsc),
        (isElementAvailable_cases e' st sc Hsc).
      destruct (getElement (scenario_elements sc) e) eqn:He; cbn [snd].
      + rewrite (isElementAvailable_cases e' st sc Hsc).
        destruct (decide (e = e')) as [<-|]; [by rewrite He|done].
      + erewrite isElementAvailable_cases by reflexivity. cbn.
        rewrite getElement_setElement. by destruct (decide (e = e')).
      + erewrite isElementAvailable_cases by reflexivity. cbn.
        rewrite getElement_setElement. by destruct (decide (e = e')).
    - destruct (Hnone e st Hsc) as [-> _]. cbn [snd].
      destruct (Hnone e' st Hsc) as [_ ->]. by destruct (decide (e = e')). }
  split_and!.
  - apply Hagree.
  - rewrite Hafter. by destruct (decide (e = e)).
  - rewrite <- Hagree, Hafter. by destruct (decide (e = e)).
  - intros e' Hne. rewrite Hafter. by destruct (decide (e = e')).
  - intros [sc Hsc]. unfold infuseElement. rewrite Hsc.
    erewrite isElementAvailable_cases by reflexivity. cbn.
    rewrite getElement_setElement. by destruct (decide (e = e)).
Qed.

Lemma element_availability_witness :
  isElementAvailable Element.ICE
    (infuseElement Element.ICE sampleScenario) = true.
Proof.
  apply element_availability. by eexists.
Defined.

(** X25. [moveCharacter] does not check the target: with a scenario in
    play the character's position becomes the target even when the target
    is not on the board. When the target is on the board and the id is not
    the empty string, [getCharacterAtPosition] on the target then returns
    the moved character; when the target is off the board, or the id is the
    empty string, it returns nothing. *)
Theorem moveCharacter_then_lookup (id : string) (target : Hex)
    (st : GloomhavenGameState) (sc : ScenarioState) (c : Character) :
  scenario st = Some sc ->
  characters st !! id = Some c ->
  characters (moveCharacter id target st) !! id
  = Some (with_position (Some target) c)
  /\ (is_Some (hexes (mapState sc) !! hexToKey target) -> id <> ""%string ->
      getCharacterAtPosition target (moveCharacter id target st)
      = Some (with_position (Some target) c))
  /\ (hexes (mapState sc) !! hexToKey target = None \/ id = ""%string ->
      getCharacterAtPosition target (moveCharacter id target st) = None).
Proof.
  intros Hsc Hc. unfold moveCharacter. rewrite Hsc, Hc.
  set (hexes1 :=
         match position c with
         | Some oldPosition =>
             match hexes (mapState sc) !! hexToKey oldPosition with
             | Some oldHex =>
                 if bool_decide (occupant oldHex = Some id)
                 then <[hexToKey oldPosition := with_occupant None oldHex]>
                        (hexes (mapState sc))
                 else hexes (mapState sc)
             | None => hexes (mapState sc)
             end
         | None => hexes (mapState sc)
         end).
  assert (Hdom : forall k, is_Some (hexes1 !! k)
                           <-> is_Some (hexes (mapState sc) !! k)).
  { intros k. subst hexes1.
    destruct (position c) as [p|]; [|done].
    destruct (hexes (mapState sc) !! hexToKey p) as [oldHex|] eqn:Hold;
      [|done].
    case_bool_decide; [|done].
    destruct (decide (hexToKey p = k)) as [<-|Hne].
    - rewrite lookup_insert_eq, Hold. split; by eexists.
    - by rewrite lookup_insert_ne. }
  unfold getCharacterAtPosition.
  cbn [scenario characters with_scenario with_characters with_hexes mapState
       hexes].
  split_and!.
  - apply lookup_insert_eq.
  - intros Hon Hid. apply Hdom in Hon as [newHex Hnew]. rewrite Hnew.
    rewrite lookup_insert_eq. cbn [occupant with_occupant].
    destruct id as [|a id']; [done|]. cbn. apply lookup_insert_eq.
  - intros [Hoff| ->].
    + destruct (hexes1 !! hexToKey target) as [newHex|] eqn:Hnew.
      * assert (is_Some (hexes (mapState sc) !! hexToKey target)) as [? ?]
          by (apply Hdom; by eexists). congruence.
      * by rewrite Hnew.
    + destruct (hexes1 !! hexToKey target) as [newHex|] eqn:Hnew.
      * by rewrite lookup_insert_eq.
      * by rewrite Hnew.
Qed.

Lemma moveCharacter_then_lookup_witness :
  getCharacterAtPosition (mkHex 2 1)
    (moveCharacter "a" (mkHex 2 1) sampleScenario)
  = Some (with_position (Some (mkHex 2 1)) (sampleCharacter "a" 3))
  /\ getCharacterAtPosition (mkHex 9 9)
       (moveCharacter "a" (mkHex 9 9) sampleScenario) = None.
Proof.
  split.
  - destruct (moveCharacter_then_lookup "a" (mkHex 2 1) sampleScenario _
                (with_position (Some (mkHex (-1) 0)) (sampleCharacter "a" 3))
                eq_refl eq_refl) as (_ & Hon & _).
    rewrite Hon; [done | | done].
    apply (bool_decide_unpack _). by vm_compute.
  - destruct (moveCharacter_then_lookup "a" (mkHex 9 9) sampleScenario _
                (with_position (Some (mkHex (-1) 0)) (sampleCharacter "a" 3))
                eq_refl eq_refl) as (_ & _ & Hoff).
    apply Hoff. left. by vm_compute.
Defined.


(* --------------------------------------------------------------------- *)
(** *** The board and the placement of [startScenario] *)

Lemma lookup_foldl_insert_key (f : Hex -> GameHex) (l : list Hex) :
  forall (m0 : gmap string GameHex) (h : Hex),
    foldl (fun m x => <[hexToKey x := f x]> m) m0 l !! hexToKey h
    = if decide (h ∈ l) then Some (f h) else m0 !! hexToKey h.
Proof.
  induction l as [|x l IH]; intros m0 h; cbn [foldl].
  - destruct (decide (h ∈ [])) as [Hin|]; [by apply elem_of_nil in Hin|done].
  - rewrite IH.
    destruct (decide (h ∈ l)) as [Hl|Hl].
    + rewrite decide_True; [done|by right].
    + destruct (decide (h = x)) as [->|Hne].
      * rewrite lookup_insert_eq, decide_True; [done|by left].
      * rewrite lookup_insert_ne by (intros Heq; by apply Hne, hexToKey_inj).
        rewrite decide_False; [done|].
        by intros [?|?]%elem_of_cons.
Qed.

Lemma startingHexMap_lookup (h : Hex) :
  startingHexMap !! hexToKey h
  = if decide (-2 <= q h <= 2 /\ -2 <= r h <= 2)
    then Some {| hex_id := String.append "hex-"
                             (String.append (numberToString (q h))
                                (String "-" (numberToString (r h))));
                 coords := h; terrain := Some TerrainType.NORMAL;
                 overlay := None; occupant := None;
                 items := Some []; tokens := Some [] |}
    else None.
Proof.
  unfold startingHexMap.
  rewrite (lookup_foldl_insert_key
             (fun h => {| hex_id := String.append "hex-"
                                      (String.append (numberToString (q h))
                                         (String "-" (numberToString (r h))));
                          coords := h; terrain := Some TerrainType.NORMAL;
                          overlay := None; occupant := None;
                          items := Some []; tokens := Some [] |})).
  rewrite lookup_empty.
  assert (Hgrid : h ∈ (seqZ (-2) (2 - -2 + 1) ≫= fun hq =>
                         (fun hr => {| q := hq; r := hr |})
                           <$> seqZ (-2) (2 - -2 + 1))
                  <-> -2 <= q h <= 2 /\ -2 <= r h <= 2).
  { rewrite list_elem_of_bind. destruct h as [hq hr]. cbn [q r]. split.
    - intros (x & (y & [= -> ->] & Hy%elem_of_seqZ)%list_elem_of_fmap
                & Hx%elem_of_seqZ). lia.
    - intros [Hq Hr]. exists hq. split; [|apply elem_of_seqZ; lia].
      apply list_elem_of_fmap. exists hr. split; [done|].
      apply elem_of_seqZ. lia. }
  destruct (decide (h ∈ _)) as [Hin|Hout];
    destruct (decide (-2 <= q h <= 2 /\ -2 <= r h <= 2)) as [Hr|Hr];
    try done; exfalso; tauto.
Qed.

Lemma sameShape_refl (hs : gmap string GameHex) : sameShape hs hs.
Proof.
  split; [done|]. intros k hex Hk. exists hex. split; [done|].
  by destruct hex.
Qed.

Lemma sameShape_occupy (hs hs' : gmap string GameHex) (k : string)
    (hex : GameHex) (o : option string) :
  sameShape hs hs' -> hs' !! k = Some hex ->
  sameShape hs (<[k := with_occupant o hex]> hs').
Proof.
  intros [Hdom Hsame] Hk. split.
  - rewrite dom_insert_L, Hdom.
    assert (k ∈ dom hs) by (rewrite <- Hdom; apply elem_of_dom; by eexists).
    apply subseteq_union_1_L. by apply singleton_subseteq_l.
  - intros k' hex' Hk'. destruct (decide (k = k')) as [<-|Hne].
    + rewrite lookup_insert_eq in Hk'. injection Hk' as <-.
      destruct (Hsame k hex Hk) as (hex0 & Hhex0 & Heq).
      exists hex0. split; [done|]. rewrite Heq. by destruct hex0.
    + rewrite lookup_insert_ne in Hk' by done. by apply Hsame.
Qed.

Lemma foldl_placeMember_shape (n : nat) (entries : list (nat * string))
    (hs : gmap string GameHex) :
  forall cs hs',
    sameShape hs hs' ->
    sameShape hs (foldl (placeMember n) (cs, hs') entries).2.
Proof.
  induction entries as [|[i id] entries IH]; intros cs hs' Hshape; [done|].
  cbn [foldl]. unfold placeMember at 2. cbn [fst snd].
  destruct (cs !! id) as [c|]; [|by apply IH].
  destruct (hs' !! hexToKey _) as [hex|] eqn:Hhex; apply IH; [|done].
  by apply sameShape_occupy.
Qed.

(** X26. [startScenario] always builds the same board, whatever the party:
    the 25 hexes whose two coordinates are between -2 and 2, each stored
    under the key of its own coordinates with Normal terrain; the six
    elements start Inert, the round is 1 and the initiative order is empty.
    A scenario already in play is replaced. *)
Theorem startScenario_board (scenarioId : Z) (partyMembers : list string)
    (st : GloomhavenGameState) :
  exists sc,
    scenario (startScenario scenarioId partyMembers st) = Some sc
    /\ size (hexes (mapState sc)) = 25%nat
    /\ (forall h, is_Some (hexes (mapState sc) !! hexToKey h)
                  <-> -2 <= q h <= 2 /\ -2 <= r h <= 2)
    /\ (forall h hex, hexes (mapState sc) !! hexToKey h = Some hex ->
                      coords hex = h
                      /\ terrain hex = Some TerrainType.NORMAL)
    /\ (forall e, getElement (scenario_elements sc) e = ElementState.INERT)
    /\ round sc = 1
    /\ initiative sc = [].
Proof.
  unfold startScenario. cbv zeta. eexists. split; [reflexivity|].
  cbn [mapState hexes scenario_elements round initiative].
  pose proof (foldl_placeMember_shape (length partyMembers)
                (imap (fun index characterId => (index, characterId))
                      partyMembers)
                startingHexMap (characters st) startingHexMap
                (sameShape_refl _)) as [Hdom Hsame].
  split_and!; try done.
  - rewrite <- size_dom, Hdom, size_dom. by vm_compute.
  - intros h. rewrite <- !elem_of_dom, Hdom, elem_of_dom.
    rewrite startingHexMap_lookup. destruct (decide _); [|split].
    + split; [done|]. by eexists.
    + by intros [? ?].
    + done.
  - intros h hex Hhex.
    destruct (Hsame _ _ Hhex) as (hex0 & Hhex0 & ->).
    rewrite startingHexMap_lookup in Hhex0.
    destruct (decide _); [|done]. by injection Hhex0 as <-.
  - by intros [].
Qed.

Lemma startPosition_key_ne (n i j : nat) :
  i <> j -> hexToKey (startPosition n i) <> hexToKey (startPosition n j).
Proof.
  intros Hne Heq. apply hexToKey_inj in Heq.
  unfold startPosition in Heq. injection Heq as Heq. lia.
Qed.

(** The placement loop over the members [ms], the first of which has index
    [j]: what it leaves in the character map and on the board. *)
Lemma foldl_placeMember_places (n : nat) (ms : list string) :
  NoDup ms ->
  forall (j : nat) (cs : gmap string Character) (hs : gmap string GameHex),
    let res := foldl (placeMember n) (cs, hs)
                     (imap (fun i id => ((j + i)%nat, id)) ms) in
    (forall i id, ms !! i = Some id ->
       res.1 !! id
       = with_position (Some (startPosition n (j + i))) <$> cs !! id)
    /\ (forall id, id ∉ ms -> res.1 !! id = cs !! id)
    /\ (forall i id, ms !! i = Some id -> is_Some (cs !! id) ->
          res.2 !! hexToKey (startPosition n (j + i))
          = with_occupant (Some id)
              <$> hs !! hexToKey (startPosition n (j + i)))
    /\ (forall k, (forall i, (i < length ms)%nat ->
                             k <> hexToKey (startPosition n (j + i))) ->
          res.2 !! k = hs !! k).
Proof.
  induction 1 as [|x ms Hx Hms IH]; intros j cs hs.
  - cbn. split_and!; try done.
  - cbn [imap foldl].
    rewrite (imap_ext _ (fun i id => ((S j + i)%nat, id)))
      by (intros; cbn; f_equal; lia).
    set (acc := placeMember n (cs, hs) ((j + 0)%nat, x)).
    destruct (IH (S j) acc.1 acc.2) as (IHa & IHb & IHc & IHd).
    rewrite <- surjective_pairing in IHa, IHb, IHc, IHd.
    assert (Hcs : forall id, id <> x -> acc.1 !! id = cs !! id).
    { intros id Hne. subst acc. unfold placeMember. cbn [fst snd].
      destruct (cs !! x); cbn [fst]; [|done]. by rewrite lookup_insert_ne. }
    assert (Hcsx : acc.1 !! x
                   = with_position (Some (startPosition n (j + 0)))
                       <$> cs !! x).
    { subst acc. unfold placeMember. cbn [fst snd].
      destruct (cs !! x) eqn:Hcx; cbn [fst]; [|done].
      by rewrite lookup_insert_eq. }
    assert (Hhs : forall k, k <> hexToKey (startPosition n (j + 0)) ->
                            acc.2 !! k = hs !! k).
    { intros k Hne. subst acc. unfold placeMember. cbn [fst snd].
      destruct (cs !! x); cbn [snd]; [|done].
      fold (startPosition n (j + 0)).
      destruct (hs !! hexToKey (startPosition n (j + 0))); [|done].
      by rewrite lookup_insert_ne. }
    assert (Hhsx : is_Some (cs !! x) ->
                   acc.2 !! hexToKey (startPosition n (j + 0))
                   = with_occupant (Some x)
                       <$> hs !! hexToKey (startPosition n (j + 0))).
    { intros [c Hc]. subst acc. unfold placeMember. cbn [fst snd].
      rewrite Hc. cbn [snd]. fold (startPosition n (j + 0)).
      destruct (hs !! hexToKey (startPosition n (j + 0))) eqn:Hh; [|done].
      by rewrite lookup_insert_eq. }
    split_and!.
    + intros [|i] id Hid; cbn in Hid.
      * injection Hid as <-. by rewrite IHb, Hcsx.
      * assert (id <> x)
          by (intros ->; apply Hx; by eapply list_elem_of_lookup_2).
        rewrite (IHa i id Hid), Hcs by done.
        by replace (S j + i)%nat with (j + S i)%nat by lia.
    + intros id [Hne Hid]%not_elem_of_cons. by rewrite IHb, Hcs.
    + intros [|i] id Hid Hsome; cbn in Hid.
      * injection Hid as <-. rewrite IHd; [by apply Hhsx|].
        intros i Hi. apply startPosition_key_ne. lia.
      * assert (id <> x)
          by (intros ->; apply Hx; by eapply list_elem_of_lookup_2).
        replace (j + S i)%nat with (S j + i)%nat by lia.
        rewrite (IHc i id Hid) by (by rewrite Hcs).
        rewrite Hhs; [done|]. apply startPosition_key_ne. lia.
    + intros k Hk. rewrite IHd.
      * apply Hhs. apply (Hk 0%nat). cbn. lia.
      * intros i Hi. replace (S j + i)%nat with (j + S i)%nat by lia.
        apply Hk. cbn. lia.
Qed.

(** X27. For a party without duplicates, [startScenario] gives the member
    of index [i] that exists in the character map the position
    [(i - floor(n / 2), 0)], [n] being the party size; missing members are
    skipped but keep their index, and characters outside the party are left
    as they were. When that position is on the board (its column between -2
    and 2, which holds for every member of a party of at most five) and the
    id is not the empty string, [getCharacterAtPosition] finds the member
    there; when it is beyond the board no hex records the member. *)
Theorem startScenario_placement (scenarioId : Z) (partyMembers : list string)
    (st : GloomhavenGameState) :
  NoDup partyMembers ->
  (forall i id c,
     partyMembers !! i = Some id -> characters st !! id = Some c ->
     let pos := startPosition (length partyMembers) i in
     let st' := startScenario scenarioId partyMembers st in
     characters st' !! id = Some (with_position (Some pos) c)
     /\ (-2 <= q pos <= 2 -> id <> ""%string ->
         getCharacterAtPosition pos st' = Some (with_position (Some pos) c))
     /\ (q pos < -2 \/ 2 < q pos -> getCharacterAtPosition pos st' = None))
  /\ (forall id, id ∉ partyMembers ->
        characters (startScenario scenarioId partyMembers st) !! id
        = characters st !! id).
Proof.
  intros Hnodup.
  destruct (foldl_placeMember_places (length partyMembers) partyMembers Hnodup
              0 (characters st) startingHexMap) as (Ha & Hb & Hc & Hd).
  split.
  - intros i id c Hi Hchar pos st'.
    specialize (Ha i id Hi). specialize (Hc i id Hi).
    rewrite Hchar in Ha. cbn [Nat.add] in Ha, Hc.
    assert (Hchars : characters st' !! id = Some (with_position (Some pos) c))
      by exact Ha.
    assert (Hhex := Hc (ex_intro _ c Hchar)).
    change (startPosition (length partyMembers) i) with pos in Hhex.
    split_and!; [done| |].
    + intros Hq Hid. unfold getCharacterAtPosition. subst st'.
      unfold startScenario at 1 2. cbv zeta.
      cbn [scenario mapState hexes].
      rewrite Hhex, startingHexMap_lookup.
      rewrite decide_True
        by (subst pos; unfold startPosition in *; cbn [q r] in *; lia).
      cbn [fmap option_fmap option_map with_occupant occupant].
      destruct id as [|a id']; [done|]. cbn [truthy mbind option_bind].
      exact Hchars.
    + intros Hq. unfold getCharacterAtPosition. subst st'.
      unfold startScenario at 1. cbv zeta.
      cbn [scenario mapState hexes].
      rewrite Hhex, startingHexMap_lookup.
      by rewrite decide_False
        by (subst pos; unfold startPosition in *; cbn [q r] in *; lia).
  - intros id Hid. by apply Hb.
Qed.

Lemma startScenario_placement_witness :
  getCharacterAtPosition (mkHex 1 0) sampleScenario
  = Some (with_position (Some (mkHex 1 0)) (sampleCharacter "c" 9)).
Proof.
  assert (Hnodup : NoDup ["a"; "b"; "c"]%string).
  { apply (bool_decide_unpack _). by vm_compute. }
  destruct (startScenario_placement 1 ["a"; "b"; "c"]%string sampleStore Hnodup)
    as [Hplace _].
  destruct (Hplace 2%nat "c"%string (sampleCharacter "c" 9) eq_refl eq_refl)
    as (_ & Hon & _).
  apply Hon; [by vm_compute | done].
Defined.

(* --------------------------------------------------------------------- *)
(** *** End of a scenario, turns, active characters *)

(** X28. [endScenario] always clears the scenario and returns to campaign
    management; it records the scenario as completed only on success and
    only when one was in play; it keeps the characters, with the positions
    they had on the board, and the party. So ending with success a
    scenario just started records its id, ending it without success leaves
    the completed set as it was, and ending twice is ending once. *)
Theorem endScenario_spec (success : bool) (st : GloomhavenGameState) :
  scenario (endScenario success st) = None
  /\ gamePhase (endScenario success st) = GamePhase.CAMPAIGN_MANAGEMENT
  /\ characters (endScenario success st) = characters st
  /\ party (endScenario success st) = party st
  /\ (forall id,
        id ∈ scenariosCompleted (campaign (endScenario success st))
        <-> id ∈ scenariosCompleted (campaign st)
            \/ (success = true
                /\ exists sc, scenario st = Some sc /\ scenario_id sc = id))
  /\ (forall id ms,
        id ∈ scenariosCompleted
               (campaign (endScenario true (startScenario id ms st)))
        /\ scenariosCompleted
             (campaign (endScenario false (startScenario id ms st)))
           = scenariosCompleted (campaign st))
  /\ (forall again, endScenario again (endScenario success st)
                    = endScenario success st).
Proof.
  split_and!; try reflexivity.
  - intros id. unfold endScenario. cbn [campaign].
    destruct (scenario st) as [sc|]; [destruct success|].
    + cbn. rewrite elem_of_union, elem_of_singleton. split.
      * intros [->|?]; [right|by left]. split; [done|]. by exists sc.
      * intros [?|[_ (sc' & [= <-] & <-)]]; [by right|by left].
    + split; [by left|]. by intros [?|[? _]].
    + split; [by left|]. by intros [?|[_ (sc' & ? & _)]].
  - intros id ms. split; [|reflexivity].
    cbn. apply elem_of_union_l. by apply elem_of_singleton.
Qed.

(** X29. With a scenario in play, [nextTurn] changes nothing but the phase
    of the round, which it sets to the end of the round or leaves alone. It
    ends the round when the initiative order is empty. When the order has
    two entries or more and its first entry is a player whose character is
    in the map under that id, it changes nothing: the turn never moves
    beyond the first figure. *)
Theorem nextTurn_spec (st : GloomhavenGameState) (sc : ScenarioState) :
  scenario st = Some sc ->
  (nextTurn st = st
   \/ nextTurn st
      = with_scenario (Some (with_phase RoundPhase.END_OF_ROUND sc)) st)
  /\ (initiative sc = [] ->
      nextTurn st
      = with_scenario (Some (with_phase RoundPhase.END_OF_ROUND sc)) st)
  /\ (forall e1 e2 rest c,
        initiative sc = e1 :: e2 :: rest ->
        figureIsPlayer e1 = true ->
        characters st !! figureId e1 = Some c ->
        char_id c = figureId e1 ->
        nextTurn st = st).
Proof.
  intros Hsc. unfold nextTurn. rewrite Hsc. cbv zeta. split_and!.
  - destruct (_ <=? _); [by right|by left].
  - intros Hempty. unfold getCurrentCharacter. by rewrite Hsc, Hempty.
  - intros e1 e2 rest c Hinit Hplayer Hchar Hid.
    unfold getCurrentCharacter. rewrite Hsc, Hinit, Hplayer, Hchar.
    cbn [fmap option_fmap option_map list_find].
    rewrite decide_True by (by rewrite Hid).
    cbn [length]. by rewrite (proj2 (Z.leb_gt _ _)) by lia.
Qed.

Lemma nextTurn_spec_witness :
  phase <$> scenario (nextTurn sampleScenario)
  = Some RoundPhase.END_OF_ROUND.
Proof.
  destruct (nextTurn_spec sampleScenario _ eq_refl) as (_ & Hempty & _).
  by rewrite Hempty.
Defined.

(** X30. [getActiveCharacters] returns, in party order, the characters
    found in the map under the ids of the party; an id without a character
    is skipped silently, so the result can be shorter than the party, and
    adding to the party an id that has no character does not change it. *)
Theorem getActiveCharacters_spec (st : GloomhavenGameState) :
  (forall c, c ∈ getActiveCharacters st
             <-> exists id, id ∈ members (party st)
                            /\ characters st !! id = Some c)
  /\ (length (getActiveCharacters st) <= length (members (party st)))%nat
  /\ (forall id, characters st !! id = None ->
        getActiveCharacters (addToParty id st) = getActiveCharacters st).
Proof.
  unfold getActiveCharacters. split_and!.
  - intros c. apply list_elem_of_omap.
  - induction (members (party st)) as [|id ids IH]; [done|].
    cbn. destruct (characters st !! id); cbn; lia.
  - intros id Hnone. unfold addToParty. case_bool_decide; [done|].
    cbn. rewrite omap_app. cbn. rewrite Hnone. by rewrite app_nil_r.
Qed.

Lemma getActiveCharacters_spec_witness :
  getActiveCharacters (addToParty "ghost" (addToParty "a" sampleStore))
  = getActiveCharacters (addToParty "a" sampleStore).
Proof.
  apply getActiveCharacters_spec. by vm_compute.
Defined.
